(** * coreinject: injecting dumped data into a core file

    A shallow embedding of [src/coreinject/main.c] of the minicoredumper and
    the properties of its ident resolution and injection engine.

    Conventions of the embedding.
    - [unsigned long], [size_t] and [off64_t] are 64 bits wide (LP64 Linux);
      they are values of [Z] with the wrap-around written out.
    - C strings are values of [string]; text and file names hold no NUL.
    - The files are byte lists.  The stream of the core file is buffered:
      what [fwrite] takes waits in the stream and reaches the file when the
      stream is next repositioned or closed.
    - What the C library and the kernel decide on their own (whether an
      allocation succeeds, how many bytes a write can store, which files can
      be opened) is read from an environment record [env]. *)

From Stdlib Require Import ZArith List Bool Lia.
From Stdlib Require Import Strings.Ascii Strings.String Strings.Byte.
Import ListNotations.

Open Scope Z_scope.
Open Scope list_scope.

(** ** The C library on strings *)

Module Libc.

Definition newline : ascii := "010"%char.

(** [isspace] in the C locale. *)
Definition isspace (c : ascii) : bool :=
  let n := nat_of_ascii c in
  (Nat.eqb n 32 || (Nat.leb 9 n && Nat.leb n 13))%bool.

Definition isdigit (c : ascii) : bool :=
  let n := nat_of_ascii c in (Nat.leb 48 n && Nat.leb n 57)%bool.

(** Value of a hexadecimal digit ([isxdigit] and its value). *)
Definition xdigit (c : ascii) : option Z :=
  let n := Z.of_nat (nat_of_ascii c) in
  if (48 <=? n) && (n <=? 57) then Some (n - 48)
  else if (97 <=? n) && (n <=? 102) then Some (n - 87)
  else if (65 <=? n) && (n <=? 70) then Some (n - 55)
  else None.

Definition digit (c : ascii) : option Z :=
  if isdigit c then Some (Z.of_nat (nat_of_ascii c) - 48) else None.

Fixpoint skip_space (s : string) : string :=
  match s with
  | String c r => if isspace c then skip_space r else s
  | EmptyString => s
  end.

(** [strchr s c]: the suffix of [s] that starts at the first [c]. *)
Fixpoint strchr (s : string) (c : ascii) : option string :=
  match s with
  | EmptyString => None
  | String a r => if Ascii.eqb a c then Some s else strchr r c
  end.

(** [strrchr s c]: the suffix of [s] that starts at the last [c]. *)
Fixpoint strrchr (s : string) (c : ascii) : option string :=
  match s with
  | EmptyString => None
  | String a r =>
      match strrchr r c with
      | Some t => Some t
      | None => if Ascii.eqb a c then Some s else None
      end
  end.

(** The characters of [s] before the first [c] (all of [s] without one):
    what is left of a line once [*strchr(line, c) = 0] ran, and what
    [strndup (s, strchr (s, c) - s)] copies. *)
Fixpoint before (s : string) (c : ascii) : string :=
  match s with
  | EmptyString => EmptyString
  | String a r => if Ascii.eqb a c then EmptyString else String a (before r c)
  end.

(** [p + 1] for a pointer [p] into a string. *)
Definition next (s : string) : string :=
  match s with
  | String _ r => r
  | EmptyString => EmptyString
  end.

(** [s + n] for [n] up to the length of [s]. *)
Fixpoint advance (n : nat) (s : string) : string :=
  match n with
  | O => s
  | S k => advance k (next s)
  end.

(** [strncmp (s, prefix, strlen (prefix)) == 0]. *)
Definition has_prefix (p s : string) : bool := String.prefix p s.

Definition two64 : Z := 2 ^ 64.

(** The longest run of digits at the head of [s], most significant first,
    and what follows it. *)
Fixpoint span (dig : ascii -> option Z) (s : string) : list Z * string :=
  match s with
  | EmptyString => ([], s)
  | String c r =>
      match dig c with
      | Some d => let '(ds, rest) := span dig r in (d :: ds, rest)
      | None => ([], s)
      end
  end.

Definition value (base : Z) (ds : list Z) : Z :=
  fold_left (fun a d => base * a + d) ds 0.

(** [strtoull] on digits already collected: the value saturates at
    [ULLONG_MAX], and a minus sign negates it modulo 2^64. *)
Definition strtoull (base : Z) (neg : bool) (ds : list Z) : Z :=
  let v := value base ds in
  if two64 <=? v then two64 - 1
  else if neg then (two64 - v) mod two64 else v.

Definition scan_sign (s : string) : bool * string :=
  match s with
  | String "-"%char r => (true, r)
  | String "+"%char r => (false, r)
  | _ => (false, s)
  end.

(** A [0x] prefix as glibc's [sscanf] reads it: the [0] already counts as a
    digit, and the [x] after it is dropped whatever follows. *)
Definition scan_0x (s : string) : bool * string :=
  match s with
  | String "0"%char r =>
      (true,
       match r with
       | String "x"%char r' => r'
       | String "X"%char r' => r'
       | _ => r
       end)
  | _ => (false, s)
  end.

(** The [%lx], [%zx] and [%llx] conversions of glibc's [sscanf]: white space
    is skipped, then a sign, a [0x] prefix and hexadecimal digits are read.
    The result is the value and the unread input; [None] is a failed
    conversion. *)
Definition scan_hex (s : string) : option (Z * string) :=
  match skip_space s with
  | EmptyString => None
  | String _ _ as s1 =>
      let '(neg, s2) := scan_sign s1 in
      let '(zero, s3) := scan_0x s2 in
      let '(ds, rest) := span xdigit s3 in
      match zero, ds with
      | false, [] => None
      | _, _ => Some (strtoull 16 neg ds, rest)
      end
  end.

(** The [%zd] conversion: white space, a sign, decimal digits; the signed
    result is stored in a [size_t]. *)
Definition scan_dec (s : string) : option (Z * string) :=
  match skip_space s with
  | EmptyString => None
  | String _ _ as s1 =>
      let '(neg, s2) := scan_sign s1 in
      let '(ds, rest) := span digit s2 in
      match ds with
      | [] => None
      | _ =>
          let v := value 10 ds in
          let two63 := 2 ^ 63 in
          Some (if neg then (if two63 <=? v then two63 else (two64 - v) mod two64)
                else (if two63 <=? v then two63 - 1 else v),
                rest)
      end
  end.

(** The [%c] conversion after a white-space directive. *)
Definition scan_char (s : string) : option (ascii * string) :=
  match skip_space s with
  | EmptyString => None
  | String c r => Some (c, r)
  end.

(** [fgets (line, n, f)]: at most [n - 1] characters, up to and including
    the first newline.  The result is the line and the unread input. *)
Fixpoint fgets (room : nat) (s : string) : string * string :=
  match room, s with
  | S k, String c r =>
      if Ascii.eqb c newline then (String c EmptyString, r)
      else let '(l, rest) := fgets k r in (String c l, rest)
  | _, _ => (EmptyString, s)
  end.

End Libc.

(** ** The data of the program *)

(** [struct ident_data].  The two string fields are NULL in a zeroed
    structure; they are assigned before they are read, and the empty string
    stands for NULL. *)
Record ident_data : Type := mk_ident_data {
  filename : string;
  ident : string;
  dump_offset : Z;
  core_offset : Z;
  mem_offset : Z;
  size : Z
}.

(** [memset (d, 0, sizeof ( *d))]. *)
Definition zero_ident_data : ident_data :=
  mk_ident_data EmptyString EmptyString 0 0 0 0.

Definition set_filename (f : string) (d : ident_data) : ident_data :=
  mk_ident_data f (ident d) (dump_offset d) (core_offset d) (mem_offset d) (size d).

Definition set_dump_offset (o : Z) (d : ident_data) : ident_data :=
  mk_ident_data (filename d) (ident d) o (core_offset d) (mem_offset d) (size d).

(** ** Reading the symbol map: [get_ident_data] *)

(** One line of the map as the loop body sees it: the four fields that
    [sscanf] converts and the text after the fourth blank. *)
Record map_line : Type := mk_map_line {
  l_offset : Z;
  l_mem : Z;
  l_size : Z;
  l_type : ascii;
  l_name : string
}.

(** [sscanf (line, "%lx %lx %zx %c ", ...) != 4] rejects the line. *)
Definition sscanf_map_line (line : string) : option (Z * Z * Z * ascii) :=
  match Libc.scan_hex line with
  | None => None
  | Some (offset, r1) =>
      match Libc.scan_hex r1 with
      | None => None
      | Some (mem, r2) =>
          match Libc.scan_hex r2 with
          | None => None
          | Some (sz, r3) =>
              match Libc.scan_char r3 with
              | None => None
              | Some (type, _) => Some (offset, mem, sz, type)
              end
          end
      end
  end.

(** The loop that locates the ident name: [n] times [p = strchr (p, ' ')]
    and [p++]. *)
Fixpoint locate_ident (n : nat) (p : string) : option string :=
  match n with
  | O => Some p
  | S k =>
      match Libc.strchr p " "%char with
      | None => None
      | Some q => locate_ident k (Libc.next q)
      end
  end.

(** Both validity tests of the loop body on a line whose newline is
    stripped. *)
Definition parse_line (raw : string) : option map_line :=
  let line := Libc.before raw Libc.newline in
  match sscanf_map_line line with
  | None => None
  | Some (offset, mem, sz, type) =>
      match locate_ident 4 line with
      | None => None
      | Some p => Some (mk_map_line offset mem sz type p)
      end
  end.

Inductive kind : Type := Direct | Indirect.

Definition kind_of_type (type : ascii) : option kind :=
  if (Ascii.eqb type "D" || Ascii.eqb type "N")%bool then Some Direct
  else if Ascii.eqb type "I" then Some Indirect
  else None.

(** The assignments under "last entry wins in case of duplicates". *)
Definition assign (want : string) (l : map_line) (d : ident_data) : ident_data :=
  mk_ident_data (filename d) want (dump_offset d) (l_offset l) (l_mem l) (l_size l).

(** One turn of the [while (fgets (...))] loop. *)
Definition scan_line (want : string) (st : ident_data * ident_data) (raw : string)
  : ident_data * ident_data :=
  match parse_line raw with
  | None => st
  | Some l =>
      if negb (String.eqb want (l_name l)) then st
      else
        match kind_of_type (l_type l) with
        | Some Direct => (assign want l (fst st), snd st)
        | Some Indirect => (fst st, assign want l (snd st))
        | None => st
        end
  end.

(** The lines that successive [fgets (line, 128, f)] calls return until the
    end of the file.  Every call on unread input consumes a character, so
    as many calls as the input has characters exhaust it. *)
Fixpoint fgets_loop (fuel : nat) (s : string) : list string :=
  match fuel, s with
  | S k, String _ _ =>
      let '(line, rest) := Libc.fgets 127 s in line :: fgets_loop k rest
  | _, _ => []
  end.

Definition fgets_lines (s : string) : list string :=
  fgets_loop (String.length s) s.

(** The scan of the whole map, before the offset adjustment. *)
Definition scan_map (want : string) (map : string) : ident_data * ident_data :=
  fold_left (scan_line want) (fgets_lines map) (zero_ident_data, zero_ident_data).

(** "If indirect data exists, the direct data will come after it in the
    dump file." *)
Definition adjust (st : ident_data * ident_data) : ident_data * ident_data :=
  let '(direct, indirect) := st in
  if (negb (size indirect =? 0) && negb (size direct =? 0))%bool
  then (set_dump_offset ((dump_offset direct + size indirect) mod Libc.two64) direct,
        indirect)
  else (direct, indirect).

(** [get_ident_data]: the return value and the two structures it fills. *)
Definition get_ident_data (want : string) (map : string)
  : Z * ident_data * ident_data :=
  let '(direct, indirect) := adjust (scan_map want map) in
  (0, direct, indirect).

Definition placement (k : kind) (st : ident_data * ident_data) : ident_data :=
  match k with
  | Direct => fst st
  | Indirect => snd st
  end.

(** The lines of a text, each closed by a newline. *)
Definition text (lines : list string) : string :=
  fold_right (fun l s => (l ++ String Libc.newline s)%string) EmptyString lines.

(** ** The overrides: [check_user_data] *)

(** [struct prog_option]; the list links are the order of the list, and
    the [int] flag [processed] is only ever 0 or 1. *)
Record prog_option : Type := mk_prog_option {
  processed : bool;
  o_size : Z;
  o_offset : Z;
  o_ident : string;
  o_filename : string
}.

Definition mark_processed (o : prog_option) : prog_option :=
  mk_prog_option true (o_size o) (o_offset o) (o_ident o) (o_filename o).

(** The three assignments to [d] in the body of the loop. *)
Definition use_option (o : prog_option) (d : ident_data) : ident_data :=
  mk_ident_data (o_filename o) (ident d) (o_offset o) (core_offset d)
    (mem_offset d) (o_size o).

(** [check_user_data]: the loop runs to the end of the list; it updates [d]
    and the [processed] flags in place. *)
Fixpoint check_user_data (d : ident_data) (options : list prog_option)
  : ident_data * list prog_option :=
  match options with
  | [] => (d, [])
  | o :: rest =>
      if processed o then
        let '(d', rest') := check_user_data d rest in (d', o :: rest')
      else if String.eqb (o_ident o) (ident d) then
        let '(d', rest') := check_user_data (use_option o d) rest in
        (d', mark_processed o :: rest')
      else
        let '(d', rest') := check_user_data d rest in (d', o :: rest')
  end.

(** ** The files and the run *)

(** [struct core_data] is declared in [common.h]; these are the fields that
    [add_dump_item] assigns, [calloc] zeroes the others. *)
Record core_data : Type := mk_core_data {
  mem_start : Z;
  start : Z;
  end_ : Z
}.

(** One constructor for each message the program prints. *)
Inductive message : Type :=
| Usage (argv0 : string)
| Err_seek_core (offset : Z) (id : string)
| Err_seek_dump (offset : Z) (id : string)
| Err_out_of_memory_bytes (n : Z)
| Err_read (n : Z)
| Hint_data (id : string) (n : Z)
| Err_write (n : Z)
| Err_ident_not_found (id : string)
| Err_open (name : string)
| Err_unknown_option (arg : string)
| Err_out_of_memory
| Err_data_syntax (arg : string)
| Err_stat (name : string)
| Err_open_core (name : string)
| Injected (id : string) (n : Z) (direct : bool).

(** What a run does, in the order it does it.  [Inject_data] is a mark and
    not an effect: [main] leaves it after each call of [inject_data], with
    the path it passed and the value the call returned. *)
Inductive event : Type :=
| Fseek_core (offset : Z) (ok : bool)
| Fseek_dump (offset : Z) (ok : bool)
| Malloc (n : Z) (ok : bool)
| Fread (n : Z) (ok : bool)
| Fwrite (n : Z) (ok : bool)
| Calloc (ok : bool)
| Strndup (ok : bool)
| Fopen (name : string) (ok : bool)
| Fclose (name : string)
| Stderr (m : message)
| Stdout (m : message)
| Inject_data (b_fname : string) (ret : Z)
| Add_dump_list (size : Z) (l : list core_data).

(** The stream [f_core] is the buffered stream of [fopen (core, "r+")]:
    [fwrite] leaves its bytes with the stream, which writes them to the
    file when it is next repositioned or closed.  [pending] holds the bytes
    that wait, with the position in the file they are for. *)
Record world : Type := mk_world {
  core : list byte;                    (* the bytes of the core file *)
  core_pos : Z;                        (* the position of the stream f_core *)
  pending : option (Z * list byte);    (* bytes the stream has not written yet *)
  nflush : nat;                        (* write-backs so far *)
  dump_list : list core_data;          (* the global list, head first *)
  nalloc : nat;                        (* allocations requested so far *)
  nwrite : nat;                        (* fwrite calls so far *)
  trace : list event                   (* oldest event first *)
}.

Definition initial_world : world := mk_world [] 0 None 0 [] 0 0 [].

(** The part of a run that the program does not decide.  The files that
    [fopen_r] opens are the files as they are when the run starts: the data
    that a run injects are not read back from the core file it writes. *)
Record env : Type := mk_env {
  stat_ok : string -> bool;                  (* stat (path) == 0 *)
  fopen_rw : string -> option (list byte);   (* fopen (path, "r+") *)
  fopen_r : string -> option (list byte);    (* fopen (path, "r") *)
  alloc_ok : nat -> bool;                    (* the k-th allocation succeeds *)
  fwrite_room : nat -> option nat;           (* bytes the stream takes from the k-th fwrite *)
  flush_room : nat -> option nat;            (* bytes the file takes at the k-th write-back *)
  open_ok : bool;                            (* open (core, O_RDWR) >= 0 *)
  fstat_ok : bool                            (* fstat (fd) == 0 *)
}.

(** *** Positions and contents *)

(** The conversion of an [unsigned long] to [long]. *)
Definition to_long (x : Z) : Z := if x <? 2 ^ 63 then x else x - 2 ^ 64.

(** [fseek (f, offset, SEEK_SET)] takes a [long] and refuses a negative
    one: an offset of 2^63 or more. *)
Definition seekable (offset : Z) : bool := 0 <=? to_long offset.

(** [n] bytes of [f] from position [pos] on, or fewer at the end of [f]. *)
Definition read_at (f : list byte) (pos n : Z) : list byte :=
  firstn (Z.to_nat n) (skipn (Z.to_nat pos) f).

(** [f] once [buf] is written at [pos]; a gap after the old end reads as
    zeros.  Nothing written leaves the file alone. *)
Definition write_at (f : list byte) (pos : Z) (buf : list byte) : list byte :=
  match buf with
  | [] => f
  | _ =>
      let p := Z.to_nat pos in
      firstn p f ++ repeat x00 (p - List.length f) ++ buf ++ skipn (p + List.length buf) f
  end.

Definition room_for (room : option nat) (buf : list byte) : list byte :=
  match room with
  | None => buf
  | Some k => firstn k buf
  end.

(** *** The state monad of a run *)

Definition M (A : Type) : Type := world -> A * world.

Definition ret {A : Type} (a : A) : M A := fun w => (a, w).

Definition bind {A B : Type} (c : M A) (k : A -> M B) : M B :=
  fun w => let '(a, w') := c w in k a w'.

Notation "x <- c ;; k" := (bind c (fun x => k))
  (at level 61, c at next level, right associativity).
Notation "c ;; k" := (bind c (fun _ => k))
  (at level 61, right associativity).

Definition log (ev : event) : M unit :=
  fun w => (tt, mk_world (core w) (core_pos w) (pending w) (nflush w)
                  (dump_list w) (nalloc w) (nwrite w) (trace w ++ [ev])).

(** The world once the events [evs] have happened in it. *)
Definition logged (evs : list event) (w : world) : world :=
  mk_world (core w) (core_pos w) (pending w) (nflush w) (dump_list w)
    (nalloc w) (nwrite w) (trace w ++ evs).

Definition get_dump_list : M (list core_data) := fun w => (dump_list w, w).

Definition set_dump_list (l : list core_data) : M unit :=
  fun w => (tt, mk_world (core w) (core_pos w) (pending w) (nflush w) l
                  (nalloc w) (nwrite w) (trace w)).

Definition set_core (f : list byte) (pos : Z) : M unit :=
  fun w => (tt, mk_world f pos (pending w) (nflush w) (dump_list w) (nalloc w)
                  (nwrite w) (trace w)).

Section Run.

Variable e : env.

(** One request to the allocator. *)
Definition allocate : M bool :=
  fun w => (alloc_ok e (nalloc w),
            mk_world (core w) (core_pos w) (pending w) (nflush w)
              (dump_list w) (S (nalloc w)) (nwrite w) (trace w)).

Definition malloc (n : Z) : M bool :=
  ok <- allocate ;; log (Malloc n ok) ;; ret ok.

Definition calloc : M bool :=
  ok <- allocate ;; log (Calloc ok) ;; ret ok.

Definition strndup : M bool :=
  ok <- allocate ;; log (Strndup ok) ;; ret ok.

(** The write-back of the bytes that wait in the stream.  The file stores
    what it has room for; the rest is lost, and the write-back has failed. *)
Definition fflush_core : M bool :=
  fun w =>
    match pending w with
    | None => (true, w)
    | Some (pos, waiting) =>
        let stored := room_for (flush_room e (nflush w)) waiting in
        (Nat.eqb (List.length stored) (List.length waiting),
         mk_world (write_at (core w) pos stored) (core_pos w) None
           (S (nflush w)) (dump_list w) (nalloc w) (nwrite w) (trace w))
    end.

(** [fseek (f_core, offset, SEEK_SET)]: the stream first writes back what
    waits, and fails when that fails. *)
Definition fseek_core (offset : Z) : M bool :=
  written <- fflush_core ;;
  let ok := (written && seekable offset)%bool in
  log (Fseek_core offset ok) ;;
  (if ok then (fun w => set_core (core w) offset w) else ret tt) ;;
  ret ok.

(** [fclose (f_core)] in [main], which drops its result. *)
Definition fclose_core : M unit :=
  fflush_core ;; ret tt.

(** [fseek (f_dump, offset, SEEK_SET)]: the new position of the dump. *)
Definition fseek_dump (offset : Z) : M (option Z) :=
  let ok := seekable offset in
  log (Fseek_dump offset ok) ;;
  ret (if ok then Some offset else None).

(** [fread (buf, n, 1, f_dump) == 1]: the [n] bytes read.  One item of [n]
    bytes is read whole or not at all, and no item has size 0. *)
Definition fread (f_dump : list byte) (pos n : Z) : M (option (list byte)) :=
  let buf := read_at f_dump pos n in
  let ok := ((0 <? n) && (Z.of_nat (List.length buf) =? n))%bool in
  log (Fread n ok) ;;
  ret (if ok then Some buf else None).

(** [fwrite (buf, n, 1, f_core) == 1].  The bytes that the stream takes
    wait in it, after those that wait already; the file is not written
    here. *)
Definition fwrite (buf : list byte) (n : Z) : M bool :=
  fun w =>
    let taken := room_for (fwrite_room e (nwrite w)) buf in
    let ok := ((0 <? n) && (Z.of_nat (List.length taken) =? n))%bool in
    (ok,
     mk_world (core w) (core_pos w + Z.of_nat (List.length taken))
       (Some (match pending w with
              | Some (pos, waiting) => (pos, waiting ++ taken)
              | None => (core_pos w, taken)
              end))
       (nflush w) (dump_list w) (nalloc w) (S (nwrite w))
       (trace w ++ [Fwrite n ok])).

(** [fopen (name, "r")]. *)
Definition fopen (name : string) : M (option (list byte)) :=
  let f := fopen_r e name in
  log (Fopen name (match f with Some _ => true | None => false end)) ;;
  ret f.

Definition fclose (name : string) : M unit := log (Fclose name).

(** ** [add_dump_item] and [write_core] *)

Definition add_dump_item (mem_offset size : Z) : M unit :=
  ok <- calloc ;;
  if negb ok then ret tt
  else
    l <- get_dump_list ;;
    set_dump_list (mk_core_data mem_offset 0 size :: l).

(** [write_core]; [f_dump] holds the bytes of the open dump file. *)
Definition write_core (f_dump : list byte) (d : ident_data) (direct : bool) : M Z :=
  (* seek in core *)
  ok <- fseek_core (core_offset d) ;;
  if negb ok then
    log (Stderr (Err_seek_core (core_offset d) (ident d))) ;; ret (-1)
  else
  (* seek in dump *)
  pos <- fseek_dump (dump_offset d) ;;
  match pos with
  | None => log (Stderr (Err_seek_dump (dump_offset d) (ident d))) ;; ret (-1)
  | Some p =>
  (* alloc data buffer *)
  ok <- malloc (size d) ;;
  if negb ok then
    log (Stderr (Err_out_of_memory_bytes (size d))) ;; ret (-1)
  else
  (* read from dump *)
  r <- fread f_dump p (size d) ;;
  match r with
  | None =>
      log (Stderr (Err_read (size d))) ;;
      (if direct then log (Stderr (Hint_data (ident d) (size d))) else ret tt) ;;
      ret (-1)
  | Some buf =>
  (* write to core *)
  ok <- fwrite buf (size d) ;;
  if negb ok then log (Stderr (Err_write (size d))) ;; ret (-1)
  else
    add_dump_item (mem_offset d) (size d) ;;
    log (Stdout (Injected (ident d) (size d) direct)) ;;
    ret 0
  end
  end.

(** ** [inject_data] *)

(** "extract ident name from file path". *)
Definition ident_of_path (b_fname : string) : string :=
  match Libc.strrchr b_fname "/"%char with
  | Some p => Libc.next p
  | None => b_fname
  end.

(** The block under [if (direct.size > 0)].  [None] is its [return -1];
    otherwise the new value of [err]. *)
Definition inject_direct (b_fname : string) (direct : ident_data)
    (options : list prog_option) (err : Z)
  : M (option Z * list prog_option) :=
  let direct := set_filename b_fname direct in
  (* replace/insert any user specified direct data *)
  let '(direct, options) := check_user_data direct options in
  (* open binary dump file for reading *)
  f <- fopen (filename direct) ;;
  match f with
  | None => log (Stderr (Err_open (filename direct))) ;; ret (None, options)
  | Some f_dump =>
      (* write direct data (continuing on error) *)
      r <- write_core f_dump direct true ;;
      fclose (filename direct) ;;
      ret (Some (Z.lor err r), options)
  end.

(** The block under [if (indirect.size > 0)], in the same way. *)
Definition inject_indirect (b_fname : string) (indirect : ident_data) (err : Z)
  : M (option Z) :=
  let indirect := set_filename b_fname indirect in
  (* open binary dump file for reading *)
  f <- fopen (filename indirect) ;;
  match f with
  | None => log (Stderr (Err_open (filename indirect))) ;; ret None
  | Some f_dump =>
      (* write indirect data (continuing on error) *)
      r <- write_core f_dump indirect false ;;
      fclose (filename indirect) ;;
      ret (Some (Z.lor err r))
  end.

Definition return_value (r : option Z) : Z :=
  match r with
  | Some err => err
  | None => -1
  end.

(** The rest of [inject_data] after the direct block. *)
Definition inject_rest (b_fname : string) (indirect : ident_data) (err : Z) : M Z :=
  if 0 <? size indirect then
    r <- inject_indirect b_fname indirect err ;; ret (return_value r)
  else ret err.

(** [inject_data]: the return value and the option list, whose [processed]
    flags it updates in place.  [map] is the text of the symbol map. *)
Definition inject_data (map : string) (b_fname : string)
    (options : list prog_option) : M (Z * list prog_option) :=
  let id := ident_of_path b_fname in
  (* get offsets/sizes from symbol map *)
  let '(found, direct, indirect) := get_ident_data id map in
  if negb (found =? 0) then
    log (Stderr (Err_ident_not_found id)) ;; ret (-1, options)
  else
    let err := 0 in
    if 0 <? size direct then
      r <- inject_direct b_fname direct options err ;;
      match r with
      | (None, options) => ret (-1, options)
      | (Some err, options) =>
          r <- inject_rest b_fname indirect err ;; ret (r, options)
      end
    else
      r <- inject_rest b_fname indirect err ;; ret (r, options).

(** ** [add_option] *)

(** [add_option]: the list with the new option at its end, or [None] for
    [return -1]. *)
Definition add_option (options : list prog_option) (arg : string)
  : M (option (list prog_option)) :=
  let bad_syntax :=
    log (Stderr (Err_data_syntax arg)) ;; ret (@None (list prog_option)) in
  let no_memory :=
    log (Stderr Err_out_of_memory) ;; ret (@None (list prog_option)) in
  (* only --data= is supported *)
  if negb (Libc.has_prefix "--data=" arg) then
    log (Stderr (Err_unknown_option arg)) ;; ret None
  else
  ok <- calloc ;;
  if negb ok then no_memory
  else
  let p1 := Libc.advance (String.length "--data=") arg in
  match Libc.strchr p1 ":"%char with
  | None => bad_syntax
  | Some p2 =>
  ok <- strndup ;;
  if negb ok then no_memory
  else
  let o_ident := Libc.before p1 ":"%char in
  let p1 := Libc.next p2 in
  match Libc.strchr p1 "@"%char with
  | None => bad_syntax
  | Some p2 =>
  match Libc.scan_dec p1 with
  | None => bad_syntax
  | Some (o_size, _) =>
  let p1 := Libc.next p2 in
  match Libc.strchr p1 "+"%char with
  | None => bad_syntax
  | Some p2 =>
  ok <- strndup ;;
  if negb ok then no_memory
  else
  let o_filename := Libc.before p1 "+"%char in
  let p1 := Libc.next p2 in
  match Libc.scan_dec p1 with
  | None => bad_syntax
  | Some (o_offset, _) =>
      (* append to existing options *)
      ret (Some (options ++ [mk_prog_option false o_size o_offset o_ident o_filename]))
  end
  end
  end
  end
  end.

(** ** [main] *)

(** The loop over the leading options: the options and the arguments left,
    or [None] for [goto out]. *)
Fixpoint parse_options (args : list string) (options : list prog_option)
  : M (option (list prog_option * list string)) :=
  match args with
  | [] => ret (Some (options, []))
  | arg :: rest =>
      match arg with
      | String "-"%char _ =>
          r <- add_option options arg ;;
          match r with
          | None => ret None
          | Some options => parse_options rest options
          end
      | _ => ret (Some (options, args))
      end
  end.

(** "try to add binary dumps (continuing on error)". *)
Fixpoint inject_dumps (map : string) (args : list string)
    (options : list prog_option) (err : Z) : M (Z * list prog_option) :=
  match args with
  | [] => ret (err, options)
  | b_fname :: rest =>
      r <- inject_data map b_fname options ;;
      let '(v, options) := r in
      log (Inject_data b_fname v) ;;
      inject_dumps map rest options (if negb (v =? 0) then Z.lor err 1 else err)
  end.

(** "try to add leftover specified direct data": the pointer [o] walks the
    list that the calls update; [i] is its index and [n] the number of nodes
    from [o] to the end. *)
Fixpoint inject_leftover (map : string) (n i : nat)
    (options : list prog_option) (err : Z) : M (Z * list prog_option) :=
  match n with
  | O => ret (err, options)
  | S k =>
      match nth_error options i with
      | None => ret (err, options)
      | Some o =>
          if processed o then inject_leftover map k (S i) options err
          else
            r <- inject_data map (o_ident o) options ;;
            let '(v, options) := r in
            log (Inject_data (o_ident o) v) ;;
            inject_leftover map k (S i) options
              (if negb (v =? 0) then Z.lor err 1 else err)
      end
  end.

(** The two loops between [err = 0] and [out:].  The first one starts at
    the index [i] that the symbol map was opened from. *)
Definition inject_all (map : string) (args : list string)
    (options : list prog_option) : M (Z * list prog_option) :=
  r <- inject_dumps map args options 0 ;;
  let '(err, options) := r in
  inject_leftover map (List.length options) 0 options err.

(** From [out:] to the end: the streams are closed, the options freed, the
    list of injected regions is handed to [add_dump_list] and freed.  A
    core stream that was never opened has nothing to write back. *)
Definition finish (err : Z) : M Z :=
  fclose_core ;;
  (if err =? 0 then
     if open_ok e then
       if fstat_ok e then
         l <- get_dump_list ;;
         (fun w => log (Add_dump_list (Z.of_nat (List.length (core w))) l) w)
       else ret tt
     else ret tt
   else ret tt) ;;
  set_dump_list [] ;;
  ret err.

(** [main] down to [err = 0]: the options, the arguments from the symbol
    map on and the text of the map; [None] stands for [goto out], which
    leaves [err] at 1. *)
Definition setup (argv : list string)
  : M (option (list prog_option * list string * string)) :=
  let argv0 := hd EmptyString argv in
  if (List.length argv <? 4)%nat then log (Stderr (Usage argv0)) ;; ret None
  else
  r <- parse_options (tl argv) [] ;;
  match r with
  | None => ret None
  | Some (_, []) => log (Stderr (Usage argv0)) ;; ret None
  | Some (options, core_filename :: args) =>
  (* check if the core file is present *)
  if negb (stat_ok e core_filename) then
    log (Stderr (Err_stat core_filename)) ;; ret None
  else
  (* open the core file read-write *)
  match fopen_rw e core_filename with
  | None => log (Stderr (Err_open_core core_filename)) ;; ret None
  | Some f_core =>
  set_core f_core 0 ;;
  match args with
  | [] => log (Stderr (Usage argv0)) ;; ret None
  | map_filename :: _ =>
  (* open the symbol map for reading *)
  match fopen_r e map_filename with
  | None => log (Stderr (Err_open map_filename)) ;; ret None
  | Some f_symmap => ret (Some (options, args, string_of_list_byte f_symmap))
  end
  end
  end
  end.

Definition main (argv : list string) : M Z :=
  s <- setup argv ;;
  match s with
  | None => finish 1
  | Some (options, args, map) =>
      r <- inject_all map args options ;;
      finish (fst r)
  end.

End Run.

(** ** Concrete environments *)

(** A file system given by the list of its files. *)
Fixpoint lookup_file (files : list (string * list byte)) (name : string)
  : option (list byte) :=
  match files with
  | [] => None
  | (n, f) :: rest => if String.eqb n name then Some f else lookup_file rest name
  end.

(** The environment in which the listed files exist and can be opened, and
    nothing else fails. *)
Definition plain_env (files : list (string * list byte)) : env :=
  mk_env (fun name => match lookup_file files name with Some _ => true | None => false end)
    (lookup_file files) (lookup_file files) (fun _ => true) (fun _ => None)
    (fun _ => None) true true.

Definition bytes (s : string) : list byte := list_byte_of_string s.

(** The direct placement of [foo] and overrides for it. *)
Definition foo_placement : ident_data :=
  mk_ident_data "/tmp/foo" "foo" 0 416 512 4.

Definition first_override : prog_option :=
  mk_prog_option false 4 100 "foo" "/tmp/first".

Definition second_override : prog_option :=
  mk_prog_option false 8 200 "foo" "/tmp/second".

Definition bar_override : prog_option :=
  mk_prog_option false 2 7 "bar" "/tmp/third".

(** Two transfers from a dump of ten bytes. *)
Definition two_transfers : list (list byte * ident_data * bool) :=
  [(bytes "0123456789", mk_ident_data "/tmp/foo" "foo" 0 0 100 2, true);
   (bytes "0123456789", mk_ident_data "/tmp/bar" "bar" 0 4 200 3, true)].


(** A core file of eight bytes, a map that knows [foo] only and the dump
    file of [foo]. *)
Definition foo_files : list (string * list byte) :=
  [("core", repeat x00 8);
   ("symbol.map", bytes (text ["4 200 3 D foo"]));
   ("/tmp/foo", bytes "FOO")]%string.

(** The same files and a file of the caller's own. *)
Definition override_files : list (string * list byte) :=
  foo_files ++ [("/tmp/custom", bytes "0123456789")]%string.

(** As [plain_env], but the core file cannot be opened again once the
    streams are closed. *)
Definition no_reopen_env (files : list (string * list byte)) : env :=
  mk_env (stat_ok (plain_env files)) (fopen_rw (plain_env files))
    (fopen_r (plain_env files)) (alloc_ok (plain_env files))
    (fwrite_room (plain_env files)) (flush_room (plain_env files)) false true.


(** The files of the scenarios: a dump of sixteen bytes for [foo], a dump
    of twelve bytes for [bar] and 104 bytes of the caller's. *)
Definition scenario_files (map_lines : list string) : list (string * list byte) :=
  [("core", repeat x00 8);
   ("symbol.map", bytes (text map_lines));
   ("/tmp/foo", bytes "0123456789abcdef");
   ("/tmp/bar", bytes "IIIIIIIIDDDD");
   ("/tmp/custom", (repeat x2e 100 ++ bytes "DATA")%list)]%string.

(** ** The operations as the specification words them

    These definitions follow the text of the specification, not the code;
    the theorems compare them with the code. *)

(** An override that a lookup for the ident [id] may still use. *)
Definition wanted (id : string) (o : prog_option) : bool :=
  (negb (processed o) && String.eqb (o_ident o) id)%bool.

(** [apply]: "scans unconsumed overrides in insertion order; the first whose
    ident matches the placement's ident overwrites size, source_offset, and
    source on the placement, marks the override consumed". *)
Fixpoint apply_first (d : ident_data) (options : list prog_option)
  : ident_data * list prog_option :=
  match options with
  | [] => (d, [])
  | o :: rest =>
      if wanted (ident d) o then (use_option o d, mark_processed o :: rest)
      else let '(d', rest') := apply_first d rest in (d', o :: rest')
  end.

(** [InjectedRegion {mem_start: placement.mem_offset, local_start: 0,
    local_end: placement.size}]. *)
Definition region_of (d : ident_data) : core_data :=
  mk_core_data (mem_offset d) 0 (size d).

(** The five steps of a transfer, "seek core, seek dump, allocate, read,
    write", each waiting for its outcome. *)
Definition transfer_steps (d : ident_data) : list (bool -> event) :=
  [Fseek_core (core_offset d); Fseek_dump (dump_offset d); Malloc (size d);
   Fread (size d); Fwrite (size d)].

Definition is_step (ev : event) : bool :=
  match ev with
  | Fseek_core _ _ | Fseek_dump _ _ | Malloc _ _ | Fread _ _ | Fwrite _ _ => true
  | _ => false
  end.

(** A size that fits 64 bits. *)
Definition in_range (d : ident_data) : Prop :=
  0 <= size d < Libc.two64.

Definition other (k : kind) : kind :=
  match k with
  | Direct => Indirect
  | Indirect => Direct
  end.

(** A line that [scan_line] stores in the placement of kind [k]. *)
Definition line_for (want : string) (k : kind) (raw : string) : Prop :=
  exists l, parse_line raw = Some l /\ l_name l = want /\
            kind_of_type (l_type l) = Some k.

Section Outcomes.

Variable e : env.

(** What the transfer of [d] from [f_dump] meets in the world [w]. *)
(** The world once the stream has written back what waits. *)
Definition flushed (w : world) : world := snd (fflush_core e w).

Definition seek_core_ok (d : ident_data) (w : world) : bool :=
  (fst (fflush_core e w) && seekable (core_offset d))%bool.
Definition seek_dump_ok (d : ident_data) : bool := seekable (dump_offset d).
Definition buffer_ok (w : world) : bool := alloc_ok e (nalloc w).
Definition read_ok (f_dump : list byte) (d : ident_data) : bool :=
  ((0 <? size d)
   && (Z.of_nat (List.length (read_at f_dump (dump_offset d) (size d))) =? size d))%bool.
Definition stored (f_dump : list byte) (d : ident_data) (w : world) : list byte :=
  room_for (fwrite_room e (nwrite w)) (read_at f_dump (dump_offset d) (size d)).
Definition write_ok (f_dump : list byte) (d : ident_data) (w : world) : bool :=
  ((0 <? size d) && (Z.of_nat (List.length (stored f_dump d w)) =? size d))%bool.
Definition record_ok (w : world) : bool := alloc_ok e (S (nalloc w)).

(** A sequence of transfers, each with its open dump file, its placement
    and its [direct] flag: the values that [write_core] returns. *)
Fixpoint run_transfers (ts : list (list byte * ident_data * bool))
  : M (list Z) :=
  match ts with
  | [] => ret []
  | (f_dump, d, direct) :: rest =>
      r <- write_core e f_dump d direct ;;
      rs <- run_transfers rest ;;
      ret (r :: rs)
  end.

End Outcomes.

(** The placements of the transfers that returned 0, in the order in which
    they ran. *)
Fixpoint succeeded (ts : list (list byte * ident_data * bool)) (rs : list Z)
  : list ident_data :=
  match ts, rs with
  | (_, d, _) :: ts', r :: rs' =>
      if r =? 0 then d :: succeeded ts' rs' else succeeded ts' rs'
  | _, _ => []
  end.

(** *** Reading a trace *)

Definition is_stderr (ev : event) : bool :=
  match ev with
  | Stderr _ => true
  | _ => false
  end.

Definition is_notify (ev : event) : bool :=
  match ev with
  | Add_dump_list _ _ => true
  | _ => false
  end.

(** The paths that [main] passed to [inject_data], call after call. *)
Fixpoint calls (t : list event) : list string :=
  match t with
  | [] => []
  | Inject_data b_fname _ :: rest => b_fname :: calls rest
  | _ :: rest => calls rest
  end.

(** The values that these calls returned. *)
Fixpoint returns (t : list event) : list Z :=
  match t with
  | [] => []
  | Inject_data _ r :: rest => r :: returns rest
  | _ :: rest => returns rest
  end.

(** [if (inject_data (...) != 0) err |= 1;] *)
Definition accumulate (err r : Z) : Z :=
  if r =? 0 then err else Z.lor err 1.

Definition unconsumed (o : prog_option) : bool := negb (processed o).

(** What a call may do to an override: nothing, or consume it. *)
Definition consumes (o o' : prog_option) : Prop :=
  o' = o \/ (processed o = false /\ o' = mark_processed o).

(** [l] is [l'] with some of its elements left out. *)
Inductive Subseq {A : Type} : list A -> list A -> Prop :=
| Subseq_nil : Subseq [] []
| Subseq_skip (x : A) (l l' : list A) : Subseq l l' -> Subseq l (x :: l')
| Subseq_keep (x : A) (l l' : list A) : Subseq l l' -> Subseq (x :: l) (x :: l').

(** The leftover pass as the specification words it: one call for every
    override that the pass over the dump files left unconsumed. *)
Definition leftover_calls_by_spec (options : list prog_option) : list string :=
  map o_ident (filter unconsumed options).

(** The map has direct data for the ident that [inject_data] derives from
    the path [b_fname]. *)
Definition has_direct (map b_fname : string) : bool :=
  let '(_, direct, _) := get_ident_data (ident_of_path b_fname) map in
  0 <? size direct.

(** An event that names an ident names [id]. *)
Definition names (id : string) (ev : event) : Prop :=
  match ev with
  | Stdout m | Stderr m =>
      match m with
      | Injected i _ _ => i = id
      | Err_seek_core _ i => i = id
      | Err_seek_dump _ i => i = id
      | Hint_data i _ => i = id
      | Err_ident_not_found i => i = id
      | _ => True
      end
  | _ => True
  end.

(** The override table once [inject_data] has been called with the path
    [b_fname]: when the map has direct data for the ident of the path, every
    unconsumed override for that ident is consumed; otherwise the table is
    as it was. *)
Definition table_after (map b_fname : string) (options : list prog_option)
  : list prog_option :=
  if has_direct map b_fname then
    List.map (fun o => if wanted (ident_of_path b_fname) o
                       then mark_processed o else o) options
  else options.

(** The override table when the walk of the leftover pass reaches index
    [i]: the override at an index before [i] had a call when it was
    unconsumed as the walk reached it, and none otherwise. *)
Fixpoint table_at (map : string) (options : list prog_option) (i : nat)
  : list prog_option :=
  match i with
  | O => options
  | S j =>
      let table := table_at map options j in
      match nth_error table j with
      | Some o => if processed o then table
                  else table_after map (o_ident o) table
      | None => table
      end
  end.

(** The call that the override at index [i] gets: one, with its own ident
    string as the path, when it is unconsumed as the walk reaches it. *)
Definition call_at (map : string) (options : list prog_option) (i : nat)
  : list string :=
  match nth_error (table_at map options i) i with
  | Some o => if processed o then [] else [o_ident o]
  | None => []
  end.

(** The calls of the whole walk, in list order. *)
Definition walk_calls (map : string) (options : list prog_option)
  : list string :=
  flat_map (call_at map options) (seq 0 (List.length options)).

(** Events from inside [inject_data] and from the set-up: no call mark and
    no hand-over among them. *)
Definition inner (new : list event) : Prop :=
  calls new = [] /\ returns new = [] /\ existsb is_notify new = false.

(** A return value of 0 without any message, or of -1 with one. *)
Definition outcome (r : Z) (new : list event) : Prop :=
  (r = 0 /\ existsb is_stderr new = false) \/
  (r = -1 /\ existsb is_stderr new = true).

(** The option list before and after some calls. *)
Definition evolves (options options' : list prog_option) : Prop :=
  Forall2 consumes options options'.

(** A step of the set-up: it leaves events that are neither a call mark
    nor the hand-over, and it gives the core stream nothing to write. *)
Definition quiet_step {A : Type} (c : M A) : Prop :=
  forall w, pending (snd (c w)) = pending w /\
            exists new, trace (snd (c w)) = trace w ++ new /\ inner new.


(** A line that one call of [fgets] returns whole: no newline inside and at
    most 126 characters before the newline that ends it. *)
Definition fits_buffer (l : string) : Prop :=
  Libc.strchr l Libc.newline = None /\ (String.length l < 127)%nat.

Definition with_newline (l : string) : string :=
  (l ++ String Libc.newline EmptyString)%string.

(** ** Writing numbers and lines, as the tools that feed the program do *)

(** The character of a digit below 16, in lower case as [%lx] prints it. *)
Definition digit_char (d : Z) : ascii :=
  ascii_of_nat (Z.to_nat (if d <? 10 then 48 + d else 87 + d)).

(** The digits of [n] in base [base], most significant first, ahead of
    [acc].  [fuel] bounds the number of digits after the first. *)
Fixpoint digits_from (fuel : nat) (base n : Z) (acc : list Z) : list Z :=
  match fuel with
  | O => n :: acc
  | S k =>
      if n <? base then n :: acc
      else digits_from k base (n / base) (n mod base :: acc)
  end.

(** A number below 2^64 has at most 64 digits. *)
Definition digits (base n : Z) : list Z := digits_from 63 base n [].

Definition print_digits (ds : list Z) : string :=
  fold_right (fun d s => String (digit_char d) s) EmptyString ds.

(** [%lx] of an [unsigned long]. *)
Definition print_lx (x : Z) : string := print_digits (digits 16 x).

(** [%ld] of an [unsigned long], which [printf] reads as a [long]. *)
Definition print_ld (x : Z) : string :=
  let v := to_long x in
  if v <? 0 then String "-" (print_digits (digits 10 (- v)))
  else print_digits (digits 10 v).

(** The directive that [usage] describes and that the hint of [write_core]
    spells: [--data=<ident>:<bytecount>@<source-file>+<source-offset>]. *)
Definition directive (id : string) (n : Z) (file : string) (offset : Z) : string :=
  ("--data=" ++ id ++ ":" ++ print_ld n ++ "@" ++ file ++ "+" ++ print_ld offset)%string.

(** A line of the symbol map: three hexadecimal fields, the type and the
    name, with one blank between them. *)
Definition render_line (l : map_line) : string :=
  (print_lx (l_offset l) ++ " " ++ print_lx (l_mem l) ++ " "
   ++ print_lx (l_size l) ++ " " ++ String (l_type l) (" " ++ l_name l))%string.

(** A digit is none of the characters that separate the fields. *)
Definition separator (c : ascii) : Prop :=
  c = " "%char \/ c = ":"%char \/ c = "@"%char \/ c = "+"%char \/ c = "-"%char
  \/ c = Libc.newline \/ c = "/"%char.

(** A line that [render_line] writes and [parse_line] reads back: fields of
    64 bits, a type that is no white space and a name without newline. *)
Definition writable (l : map_line) : Prop :=
  0 <= l_offset l < 2 ^ 64 /\ 0 <= l_mem l < 2 ^ 64 /\ 0 <= l_size l < 2 ^ 64 /\
  Libc.isspace (l_type l) = false /\
  Libc.strchr (l_name l) Libc.newline = None.

(** ** Resolution, told by the lines that count *)

Definition kind_eqb (a b : kind) : bool :=
  match a, b with
  | Direct, Direct | Indirect, Indirect => true
  | _, _ => false
  end.

(** The fields of the line [raw] if it is well formed, carries the name
    [want] and a type of kind [k]. *)
Definition entry_for (want : string) (k : kind) (raw : string) : option map_line :=
  match parse_line raw with
  | Some l =>
      if String.eqb want (l_name l) then
        match kind_of_type (l_type l) with
        | Some k' => if kind_eqb k k' then Some l else None
        | None => None
        end
      else None
  | None => None
  end.

(** What [f] gives for the last element of the list that it accepts. *)
Fixpoint last_some {A B : Type} (f : A -> option B) (l : list A) : option B :=
  match l with
  | [] => None
  | x :: rest =>
      match last_some f rest with
      | Some y => Some y
      | None => f x
      end
  end.

(** The placement of kind [k] that the lines give to [want]: the fields of
    the last line that counts, or a zeroed structure. *)
Definition resolved (want : string) (k : kind) (lines : list string) : ident_data :=
  match last_some (entry_for want k) lines with
  | Some l => assign want l zero_ident_data
  | None => zero_ident_data
  end.

(** The same choice among entries that are not yet written as text. *)
Definition pick (want : string) (k : kind) (l : map_line) : option map_line :=
  if String.eqb want (l_name l) then
    match kind_of_type (l_type l) with
    | Some k' => if kind_eqb k k' then Some l else None
    | None => None
    end
  else None.

(** A line that fits the buffer of [get_ident_data] with its newline. *)
Definition short_line (l : map_line) : Prop :=
  (String.length (render_line l) < 127)%nat.

(** The placement of kind [k] that a list of entries gives to [want]. *)
Definition chosen (want : string) (k : kind) (entries : list map_line) : ident_data :=
  match last_some (pick want k) entries with
  | Some l => assign want l zero_ident_data
  | None => zero_ident_data
  end.

(** A map of three entries: [foo], and [bar] with indirect data. *)
Definition three_entries : list map_line :=
  [mk_map_line 416 512 16 "D" "foo";
   mk_map_line 0 768 8 "I" "bar";
   mk_map_line 8 1024 4 "D" "bar"].

(** ** The set-up of a run *)

(** The events of the set-up: the allocations of [add_option] and the
    messages. *)
Definition setup_event (ev : event) : bool :=
  match ev with
  | Calloc _ | Strndup _ | Stderr _ => true
  | _ => false
  end.

(** * Properties *)

(** ** The lines of the map *)

Lemma fgets_split (room : nat) (s : string) :
  let '(line, rest) := Libc.fgets room s in
  s = (line ++ rest)%string /\
  (String.length rest + String.length line = String.length s)%nat.
Proof.
  revert s; induction room as [|k IH]; intros s; simpl.
  - destruct s; simpl; auto.
  - destruct s as [|c r]; simpl; [auto|].
    destruct (Ascii.eqb c Libc.newline); simpl; [split; [reflexivity | lia]|].
    specialize (IH r); destruct (Libc.fgets k r) as [l rest]; simpl.
    destruct IH as [E L]; split; [rewrite E at 1; reflexivity | lia].
Qed.

Lemma fgets_progress (room : nat) (c : ascii) (r : string) :
  (String.length (snd (Libc.fgets (S room) (String c r))) <= String.length r)%nat.
Proof.
  simpl. destruct (Ascii.eqb c Libc.newline); simpl; [lia|].
  pose proof (fgets_split room r) as H.
  destruct (Libc.fgets room r) as [l rest]; simpl; lia.
Qed.

Lemma append_empty (s : string) : (s ++ EmptyString)%string = s.
Proof. induction s; simpl; congruence. Qed.

Lemma concat_empty_cons (x : string) (xs : list string) :
  String.concat EmptyString (x :: xs)
  = (x ++ String.concat EmptyString xs)%string.
Proof.
  destruct xs; simpl; [symmetry; apply append_empty | reflexivity].
Qed.

(** The loop is given as many turns as the text has characters; that is
    enough to read all of it: the lines put together are the text. *)
Lemma fgets_loop_reads_all (fuel : nat) (s : string) :
  (String.length s <= fuel)%nat ->
  String.concat EmptyString (fgets_loop fuel s) = s.
Proof.
  revert s; induction fuel as [|k IH]; intros s Hlen.
  - destruct s; [reflexivity | simpl in Hlen; lia].
  - destruct s as [|c r]; [reflexivity|].
    cbn [fgets_loop].
    pose proof (fgets_split 127 (String c r)) as Hs.
    pose proof (fgets_progress 126 c r) as Hp.
    destruct (Libc.fgets 127 (String c r)) as [line rest].
    destruct Hs as [E _]; simpl in Hp.
    rewrite concat_empty_cons, IH by (simpl in Hlen; lia).
    symmetry; exact E.
Qed.

Lemma fgets_lines_read_all (s : string) :
  String.concat EmptyString (fgets_lines s) = s.
Proof. apply fgets_loop_reads_all; lia. Qed.

Lemma fgets_whole_line (room : nat) (l rest : string) :
  Libc.strchr l Libc.newline = None -> (String.length l < room)%nat ->
  Libc.fgets room (l ++ String Libc.newline rest) = (with_newline l, rest).
Proof.
  unfold with_newline.
  revert room; induction l as [|c l IH]; intros room Hnl Hlen.
  - destruct room; [simpl in Hlen; lia | reflexivity].
  - destruct room as [|room]; [simpl in Hlen; lia|].
    simpl in Hnl |- *.
    destruct (Ascii.eqb c Libc.newline); [discriminate|].
    rewrite IH by (simpl in Hlen; auto; lia); reflexivity.
Qed.

Lemma length_append (a b : string) :
  String.length (a ++ b) = (String.length a + String.length b)%nat.
Proof. induction a; simpl; congruence. Qed.

(** A text whose lines fit the buffer is read line by line. *)
Lemma fgets_lines_text (lines : list string) :
  Forall fits_buffer lines ->
  fgets_lines (text lines) = List.map with_newline lines.
Proof.
  intros Hfit; unfold fgets_lines.
  assert (H : forall fuel, (String.length (text lines) <= fuel)%nat ->
                fgets_loop fuel (text lines) = List.map with_newline lines).
  { induction Hfit as [|l lines [Hnl Hlen] _ IH]; intros fuel Hfuel.
    - destruct fuel; reflexivity.
    - simpl in Hfuel; rewrite length_append in Hfuel; simpl in Hfuel.
      destruct fuel as [|fuel]; [lia|].
      cbn [text fold_right List.map].
      fold (text lines).
      assert (E : fgets_loop (S fuel) (l ++ String Libc.newline (text lines))
                  = with_newline l :: fgets_loop fuel (text lines)).
      { destruct l as [|c l]; cbn [String.append fgets_loop].
        - reflexivity.
        - change (String c (l ++ String Libc.newline (text lines)))
            with (String c l ++ String Libc.newline (text lines))%string.
          rewrite fgets_whole_line by assumption; reflexivity. }
      rewrite E, IH by lia; reflexivity. }
  apply H; lia.
Qed.



(** ** The conversions stay within 64 bits *)

Lemma xdigit_nonneg (c : ascii) (d : Z) : Libc.xdigit c = Some d -> 0 <= d.
Proof.
  unfold Libc.xdigit.
  repeat match goal with
         | |- context [if ?b then _ else _] => destruct b eqn:?
         end; intros H; inversion H; subst; lia.
Qed.

Lemma span_xdigit_nonneg (s : string) :
  Forall (fun d => 0 <= d) (fst (Libc.span Libc.xdigit s)).
Proof.
  induction s as [|c r IH]; simpl; [constructor|].
  destruct (Libc.xdigit c) as [d|] eqn:Hd; [|constructor].
  destruct (Libc.span Libc.xdigit r) as [ds rest]; simpl in *.
  constructor; [eapply xdigit_nonneg; eauto | exact IH].
Qed.

Lemma fold_value_nonneg (base : Z) (ds : list Z) (a : Z) :
  0 <= base -> 0 <= a -> Forall (fun d => 0 <= d) ds ->
  0 <= fold_left (fun a d => base * a + d) ds a.
Proof.
  intros Hb Ha Hds; revert a Ha.
  induction Hds as [|d ds Hd _ IH]; intros a Ha; simpl; [exact Ha|].
  apply IH; nia.
Qed.

Lemma strtoull_range (neg : bool) (ds : list Z) :
  Forall (fun d => 0 <= d) ds ->
  0 <= Libc.strtoull 16 neg ds < Libc.two64.
Proof.
  intros Hds; unfold Libc.strtoull.
  assert (Hv : 0 <= Libc.value 16 ds)
    by (apply fold_value_nonneg; [lia | lia | exact Hds]).
  assert (H64 : 0 < Libc.two64) by (unfold Libc.two64; lia).
  destruct (Libc.two64 <=? Libc.value 16 ds) eqn:Hle; [lia|].
  apply Z.leb_gt in Hle.
  destruct neg; [apply Z.mod_pos_bound; exact H64 | lia].
Qed.

Lemma scan_hex_range (s rest : string) (v : Z) :
  Libc.scan_hex s = Some (v, rest) -> 0 <= v < Libc.two64.
Proof.
  unfold Libc.scan_hex.
  destruct (Libc.skip_space s) as [|c r]; [discriminate|].
  destruct (Libc.scan_sign (String c r)) as [neg s2].
  destruct (Libc.scan_0x s2) as [zero s3].
  pose proof (span_xdigit_nonneg s3) as Hds.
  destruct (Libc.span Libc.xdigit s3) as [ds rest']; simpl in Hds.
  destruct zero, ds; try discriminate;
    intros H; inversion H; subst; apply strtoull_range; exact Hds.
Qed.

Lemma parse_line_range (raw : string) (l : map_line) :
  parse_line raw = Some l ->
  0 <= l_offset l < Libc.two64 /\ 0 <= l_mem l < Libc.two64 /\
  0 <= l_size l < Libc.two64.
Proof.
  unfold parse_line, sscanf_map_line.
  destruct (Libc.scan_hex _) as [[offset r1]|] eqn:H1; [|discriminate].
  destruct (Libc.scan_hex r1) as [[mem r2]|] eqn:H2; [|discriminate].
  destruct (Libc.scan_hex r2) as [[sz r3]|] eqn:H3; [|discriminate].
  destruct (Libc.scan_char r3) as [[type r4]|]; [|discriminate].
  destruct (locate_ident 4 _) as [p|]; [|discriminate].
  intros H; inversion H; subst; simpl.
  repeat split; eapply scan_hex_range; eassumption.
Qed.

(** ** The scan of the map *)

Lemma scan_line_cases (want : string) (st : ident_data * ident_data) (raw : string) :
  (scan_line want st raw = st) \/
  (exists l, parse_line raw = Some l /\ l_name l = want /\
     kind_of_type (l_type l) = Some Direct /\
     scan_line want st raw = (assign want l (fst st), snd st)) \/
  (exists l, parse_line raw = Some l /\ l_name l = want /\
     kind_of_type (l_type l) = Some Indirect /\
     scan_line want st raw = (fst st, assign want l (snd st))).
Proof.
  unfold scan_line.
  destruct (parse_line raw) as [l|] eqn:Hp; [|now left].
  destruct (String.eqb want (l_name l)) eqn:Hn; simpl; [|now left].
  apply String.eqb_eq in Hn.
  destruct (kind_of_type (l_type l)) as [[|]|] eqn:Hk; [| |now left].
  - right; left; exists l; auto.
  - right; right; exists l; auto.
Qed.

Lemma scan_lines_invariant (want : string) (lines : list string)
    (st : ident_data * ident_data) :
  in_range (fst st) -> in_range (snd st) ->
  let st' := fold_left (scan_line want) lines st in
  in_range (fst st') /\ in_range (snd st') /\
  dump_offset (fst st') = dump_offset (fst st) /\
  dump_offset (snd st') = dump_offset (snd st) /\
  filename (fst st') = filename (fst st) /\
  filename (snd st') = filename (snd st).
Proof.
  unfold in_range.
  revert st; induction lines as [|raw lines IH]; intros st Hd Hi; simpl.
  - tauto.
  - destruct (scan_line_cases want st raw)
      as [E | [(l & Hp & _ & _ & E) | (l & Hp & _ & _ & E)]];
      rewrite E; [now apply IH | |];
      apply parse_line_range in Hp;
      match goal with
      | |- context [fold_left _ lines ?s] =>
          destruct (IH s) as (A & B & C & D & F & G);
          [simpl; tauto ..|]
      end;
      simpl in *; tauto.
Qed.

Lemma scan_line_hit (want : string) (k : kind) (raw : string) (l : map_line)
    (st : ident_data * ident_data) :
  parse_line raw = Some l -> l_name l = want ->
  kind_of_type (l_type l) = Some k ->
  placement k (scan_line want st raw) = assign want l (placement k st) /\
  placement (other k) (scan_line want st raw) = placement (other k) st.
Proof.
  intros Hp Hn Hk; unfold scan_line; rewrite Hp, Hk.
  subst want; rewrite String.eqb_refl; simpl.
  destruct k; simpl; auto.
Qed.

Lemma scan_line_miss (want : string) (k : kind) (raw : string)
    (st : ident_data * ident_data) :
  ~ line_for want k raw ->
  placement k (scan_line want st raw) = placement k st.
Proof.
  intros Hno.
  destruct (scan_line_cases want st raw)
    as [E | [(l & Hp & Hn & Hk & E) | (l & Hp & Hn & Hk & E)]];
    rewrite E; [reflexivity | |];
    destruct k; simpl; try reflexivity;
    exfalso; apply Hno; exists l; auto.
Qed.

Lemma scan_lines_miss (want : string) (k : kind) (lines : list string)
    (st : ident_data * ident_data) :
  Forall (fun raw => ~ line_for want k raw) lines ->
  placement k (fold_left (scan_line want) lines st) = placement k st.
Proof.
  intros H; revert st; induction H as [|raw lines Hraw _ IH]; intros st.
  - reflexivity.
  - simpl; rewrite IH; apply scan_line_miss; exact Hraw.
Qed.

Lemma adjust_keeps (st : ident_data * ident_data) (k : kind) :
  let d := placement k (adjust st) in
  let d0 := placement k st in
  core_offset d = core_offset d0 /\ mem_offset d = mem_offset d0 /\
  size d = size d0 /\ ident d = ident d0 /\ filename d = filename d0.
Proof.
  destruct st as [direct indirect]; unfold adjust.
  destruct (negb (size indirect =? 0) && negb (size direct =? 0))%bool;
    destruct k; simpl; auto.
Qed.

(** C4.  When several lines of the map are well formed and carry the
    requested ident and a type of the same kind ([D] or [N]: direct, [I]:
    indirect), [get_ident_data] returns the core offset, the memory address
    and the size of the last of them in file order; lines of the other kind
    may follow it and do not count. *)
Theorem last_line_of_a_kind_wins (want map : string) (k : kind)
    (pre post : list string) (raw : string) (l : map_line) :
  fgets_lines map = pre ++ raw :: post ->
  parse_line raw = Some l ->
  l_name l = want ->
  kind_of_type (l_type l) = Some k ->
  Forall (fun raw' => ~ line_for want k raw') post ->
  let '(_, direct, indirect) := get_ident_data want map in
  let d := placement k (direct, indirect) in
  core_offset d = l_offset l /\ mem_offset d = l_mem l /\
  size d = l_size l /\ ident d = want.
Proof.
  intros Hlines Hp Hn Hk Hpost.
  unfold get_ident_data.
  destruct (adjust (scan_map want map)) as [direct indirect] eqn:Ha.
  pose proof (adjust_keeps (scan_map want map) k) as Hkeep.
  rewrite Ha in Hkeep; simpl in Hkeep.
  destruct Hkeep as (H1 & H2 & H3 & H4 & _).
  assert (Hscan : placement k (scan_map want map)
                  = assign want l (placement k
                      (fold_left (scan_line want) pre
                         (zero_ident_data, zero_ident_data)))).
  { unfold scan_map; rewrite Hlines, fold_left_app; simpl.
    rewrite scan_lines_miss by exact Hpost.
    eapply scan_line_hit; eauto. }
  rewrite Hscan in H1, H2, H3, H4; simpl in *.
  rewrite H1, H2, H3, H4; auto.
Qed.

Lemma last_line_of_a_kind_wins_witness :
  let '(_, direct, _) :=
    get_ident_data "foo"
      (text ["1 2 3 D foo"; "4 5 6 I foo"; "7 8 9 N foo"; "a b c I foo"; "d e f D bar"]%string) in
  core_offset direct = 7 /\ mem_offset direct = 8 /\ size direct = 9 /\
  ident direct = "foo"%string.
Proof.
  apply (last_line_of_a_kind_wins "foo"
           (text ["1 2 3 D foo"; "4 5 6 I foo"; "7 8 9 N foo"; "a b c I foo"; "d e f D bar"]%string)
           Direct
           (fgets_lines (text ["1 2 3 D foo"; "4 5 6 I foo"]%string))
           (fgets_lines (text ["a b c I foo"; "d e f D bar"]%string))
           (text ["7 8 9 N foo"]%string)
           (mk_map_line 7 8 9 "N" "foo")).
  - vm_compute; reflexivity.
  - vm_compute; reflexivity.
  - vm_compute; reflexivity.
  - vm_compute; reflexivity.
  - repeat constructor; intros (l & Hp & Hn & Hk);
      vm_compute in Hp; inversion Hp; subst l; vm_compute in Hn, Hk;
      discriminate.
Defined.

(** C5.  The scan leaves the dump offset of the direct data at 0.  When
    both placements are found with a size that is not 0, the dump offset of
    the direct data is this raw offset plus the size of the indirect data;
    when one of the sizes is 0 it stays the raw offset.  Nothing else
    changes. *)
Theorem direct_offset_adjustment (want map : string) :
  let raw := scan_map want map in
  let '(_, direct, indirect) := get_ident_data want map in
  dump_offset (fst raw) = 0 /\
  dump_offset direct =
    (if (negb (size indirect =? 0) && negb (size direct =? 0))%bool
     then dump_offset (fst raw) + size indirect
     else dump_offset (fst raw)) /\
  size direct = size (fst raw) /\
  indirect = snd raw.
Proof.
  unfold get_ident_data.
  pose proof (scan_lines_invariant want (fgets_lines map)
                (zero_ident_data, zero_ident_data)) as Hinv.
  fold (scan_map want map) in Hinv.
  destruct Hinv as (_ & Hi & Hoff & _); try (unfold in_range, Libc.two64; simpl; lia).
  simpl in Hoff.
  destruct (scan_map want map) as [direct indirect]; simpl in *.
  unfold in_range in Hi.
  destruct (negb (size indirect =? 0) && negb (size direct =? 0))%bool eqn:Hb;
    simpl; rewrite ?Hb; repeat split; auto.
  rewrite Hoff, Z.add_0_l. apply Z.mod_small; exact Hi.
Qed.

(** ** The overrides *)

Lemma check_user_data_ident (d : ident_data) (options : list prog_option) :
  ident (fst (check_user_data d options)) = ident d.
Proof.
  revert d; induction options as [|o rest IH]; intros d; simpl; [reflexivity|].
  destruct (processed o).
  - specialize (IH d); destruct (check_user_data d rest); exact IH.
  - destruct (String.eqb (o_ident o) (ident d)).
    + specialize (IH (use_option o d)).
      destruct (check_user_data (use_option o d) rest); exact IH.
    + specialize (IH d); destruct (check_user_data d rest); exact IH.
Qed.

Lemma check_user_data_options (d : ident_data) (options : list prog_option) :
  snd (check_user_data d options)
  = map (fun o => if wanted (ident d) o then mark_processed o else o) options.
Proof.
  revert d; induction options as [|o rest IH]; intros d; simpl; [reflexivity|].
  unfold wanted at 1.
  destruct (processed o); simpl.
  - specialize (IH d); destruct (check_user_data d rest); simpl in *; now f_equal.
  - destruct (String.eqb (o_ident o) (ident d)).
    + specialize (IH (use_option o d)).
      destruct (check_user_data (use_option o d) rest); simpl in *; now f_equal.
    + specialize (IH d); destruct (check_user_data d rest); simpl in *; now f_equal.
Qed.

Lemma check_user_data_placement (d : ident_data) (options : list prog_option) :
  fst (check_user_data d options)
  = match rev (filter (wanted (ident d)) options) with
    | o :: _ => use_option o d
    | [] => d
    end.
Proof.
  revert d; induction options as [|o rest IH]; intros d; simpl; [reflexivity|].
  unfold wanted at 1.
  destruct (processed o); simpl.
  - specialize (IH d); destruct (check_user_data d rest); exact IH.
  - destruct (String.eqb (o_ident o) (ident d)).
    + specialize (IH (use_option o d)).
      destruct (check_user_data (use_option o d) rest); simpl in *.
      rewrite IH.
      destruct (rev (filter (wanted (ident d)) rest)); reflexivity.
    + specialize (IH d); destruct (check_user_data d rest); exact IH.
Qed.

Lemma check_user_data_none_wanted (d : ident_data) (options : list prog_option) :
  Forall (fun o => wanted (ident d) o = false) options ->
  check_user_data d options = (d, options).
Proof.
  induction 1 as [|o rest Ho _ IH]; simpl; [reflexivity|].
  unfold wanted in Ho; rewrite IH.
  destruct (processed o); [reflexivity|].
  simpl in Ho; rewrite Ho; reflexivity.
Qed.

Lemma apply_first_agrees (d : ident_data) (options : list prog_option) :
  (List.length (filter (wanted (ident d)) options) <= 1)%nat ->
  check_user_data d options = apply_first d options.
Proof.
  induction options as [|o rest IH]; simpl; [reflexivity|].
  destruct (wanted (ident d) o) eqn:Hw; simpl; intros Hlen.
  - unfold wanted in Hw; apply andb_prop in Hw; destruct Hw as [Hp He].
    apply negb_true_iff in Hp; rewrite Hp, He.
    rewrite check_user_data_none_wanted; [reflexivity|].
    simpl. apply Forall_forall; intros o' Hin.
    destruct (wanted (ident d) o') eqn:Hw'; [|reflexivity].
    assert (Hin' : In o' (filter (wanted (ident d)) rest))
      by (apply filter_In; auto).
    destruct (filter (wanted (ident d)) rest); [destruct Hin' | simpl in Hlen; lia].
  - rewrite <- (IH Hlen).
    unfold wanted in Hw.
    destruct (processed o); [reflexivity|].
    simpl in Hw; rewrite Hw; reflexivity.
Qed.

(** C2, as the code has it.  [check_user_data] walks the whole list in
    insertion order: every unconsumed override with the ident of the
    placement overwrites its size, dump offset and file name in turn and is
    marked consumed, so the placement keeps the values of the last of them,
    and one call may consume several.  A later call for the same ident
    finds them consumed and changes nothing: no override serves two
    resolutions.  With at most one such override the call does what the
    first-match lookup does. *)
Theorem check_user_data_takes_every_match (d : ident_data)
    (options : list prog_option) :
  let '(d', options') := check_user_data d options in
  options' = map (fun o => if wanted (ident d) o then mark_processed o else o)
               options /\
  d' = match rev (filter (wanted (ident d)) options) with
       | o :: _ => use_option o d
       | [] => d
       end /\
  (forall d2, ident d2 = ident d ->
     check_user_data d2 options' = (d2, options')) /\
  ((List.length (filter (wanted (ident d)) options) <= 1)%nat ->
   (d', options') = apply_first d options).
Proof.
  pose proof (check_user_data_options d options) as Ho.
  pose proof (check_user_data_placement d options) as Hd.
  pose proof (apply_first_agrees d options) as Hf.
  destruct (check_user_data d options) as [d' options']; simpl in *.
  repeat split; auto.
  intros d2 Hid; apply check_user_data_none_wanted.
  rewrite Hid, Ho; apply Forall_forall; intros o' Hin.
  apply in_map_iff in Hin; destruct Hin as (o & Heq & _); subst o'.
  destruct (wanted (ident d) o) eqn:Hw; [reflexivity | exact Hw].
Qed.

Lemma check_user_data_takes_every_match_witness :
  check_user_data (set_filename "/elsewhere/foo" foo_placement)
    (snd (check_user_data foo_placement [bar_override; first_override]))
  = (set_filename "/elsewhere/foo" foo_placement,
     snd (check_user_data foo_placement [bar_override; first_override])) /\
  check_user_data foo_placement [bar_override; first_override]
  = apply_first foo_placement [bar_override; first_override].
Proof.
  pose proof (check_user_data_takes_every_match foo_placement
                [bar_override; first_override]) as H.
  destruct (check_user_data foo_placement [bar_override; first_override])
    as [d' options'].
  destruct H as (_ & _ & Honce & Hfirst).
  split.
  - apply Honce; reflexivity.
  - apply Hfirst; simpl; lia.
Defined.

(** C2 as stated fails: with two unconsumed overrides for [foo], one call
    consumes both, and the placement keeps the values of the second, not of
    the first. *)
Lemma check_user_data_not_first_match :
  check_user_data foo_placement [first_override; second_override]
  <> apply_first foo_placement [first_override; second_override] /\
  fst (check_user_data foo_placement [first_override; second_override])
  = use_option second_override foo_placement /\
  fst (apply_first foo_placement [first_override; second_override])
  = use_option first_override foo_placement /\
  map processed
    (snd (check_user_data foo_placement [first_override; second_override]))
  = [true; true].
Proof.
  repeat split; try reflexivity.
  intros H; vm_compute in H; discriminate H.
Qed.

(** ** Reading and writing a file *)




(** ** The transfer: [write_core] *)

Ltac run_monad :=
  unfold write_core, add_dump_item, fseek_core, fseek_dump, malloc, calloc,
    strndup, fread, fwrite, fopen, fclose, allocate, log, get_dump_list,
    set_dump_list, set_core, bind, ret; simpl.

Section Transfer.

Variable e : env.

Lemma flushed_fields (w : world) :
  pending (flushed e w) = None /\ core_pos (flushed e w) = core_pos w /\
  dump_list (flushed e w) = dump_list w /\ nalloc (flushed e w) = nalloc w /\
  nwrite (flushed e w) = nwrite w /\ trace (flushed e w) = trace w.
Proof.
  unfold flushed, fflush_core.
  destruct (pending w) as [[pos waiting]|] eqn:E; simpl; auto 6.
Qed.

Lemma flushed_nothing (w : world) :
  pending w = None -> fflush_core e w = (true, w).
Proof. intros E; unfold fflush_core; rewrite E; reflexivity. Qed.

Lemma write_core_run (f_dump : list byte) (d : ident_data) (direct : bool)
    (w : world) :
  write_core e f_dump d direct w =
  let file := core (flushed e w) in
  let k := nflush (flushed e w) in
  if negb (seek_core_ok e d w) then
    (-1, mk_world file (core_pos w) None k (dump_list w) (nalloc w) (nwrite w)
           (trace w ++ [Fseek_core (core_offset d) false;
                        Stderr (Err_seek_core (core_offset d) (ident d))]))
  else if negb (seek_dump_ok d) then
    (-1, mk_world file (core_offset d) None k (dump_list w) (nalloc w)
           (nwrite w)
           (trace w ++ [Fseek_core (core_offset d) true;
                        Fseek_dump (dump_offset d) false;
                        Stderr (Err_seek_dump (dump_offset d) (ident d))]))
  else if negb (buffer_ok e w) then
    (-1, mk_world file (core_offset d) None k (dump_list w) (S (nalloc w))
           (nwrite w)
           (trace w ++ [Fseek_core (core_offset d) true;
                        Fseek_dump (dump_offset d) true;
                        Malloc (size d) false;
                        Stderr (Err_out_of_memory_bytes (size d))]))
  else if negb (read_ok f_dump d) then
    (-1, mk_world file (core_offset d) None k (dump_list w) (S (nalloc w))
           (nwrite w)
           (trace w ++ [Fseek_core (core_offset d) true;
                        Fseek_dump (dump_offset d) true;
                        Malloc (size d) true;
                        Fread (size d) false;
                        Stderr (Err_read (size d))]
                   ++ (if direct then [Stderr (Hint_data (ident d) (size d))]
                       else [])))
  else if negb (write_ok e f_dump d w) then
    (-1, mk_world file
           (core_offset d + Z.of_nat (List.length (stored e f_dump d w)))
           (Some (core_offset d, stored e f_dump d w)) k
           (dump_list w) (S (nalloc w)) (S (nwrite w))
           (trace w ++ [Fseek_core (core_offset d) true;
                        Fseek_dump (dump_offset d) true;
                        Malloc (size d) true;
                        Fread (size d) true;
                        Fwrite (size d) false;
                        Stderr (Err_write (size d))]))
  else
    (0, mk_world file
          (core_offset d + Z.of_nat (List.length (stored e f_dump d w)))
          (Some (core_offset d, stored e f_dump d w)) k
          (if record_ok e w
           then mk_core_data (mem_offset d) 0 (size d) :: dump_list w
           else dump_list w)
          (S (S (nalloc w))) (S (nwrite w))
          (trace w ++ [Fseek_core (core_offset d) true;
                       Fseek_dump (dump_offset d) true;
                       Malloc (size d) true;
                       Fread (size d) true;
                       Fwrite (size d) true;
                       Calloc (record_ok e w);
                       Stdout (Injected (ident d) (size d) direct)])).
Proof.
  unfold seek_core_ok, seek_dump_ok, buffer_ok, read_ok, write_ok, record_ok,
    stored, flushed.
  unfold write_core, fseek_core, bind at 1 2.
  assert (Hw : exists ok file k,
             fflush_core e w
             = (ok, mk_world file (core_pos w) None k (dump_list w) (nalloc w)
                      (nwrite w) (trace w))).
  { unfold fflush_core. destruct (pending w) as [[pos waiting]|] eqn:E.
    - eauto.
    - exists true, (core w), (nflush w); destruct w; simpl in *; subst; auto. }
  destruct Hw as (ok & file & k & Hw); rewrite Hw; clear Hw.
  run_monad.
  destruct ok; simpl; [|rewrite <- !app_assoc; reflexivity].
  destruct (seekable (core_offset d)); simpl;
    [|rewrite <- !app_assoc; reflexivity].
  destruct (seekable (dump_offset d)); simpl;
    [|rewrite <- !app_assoc; reflexivity].
  destruct (alloc_ok e (nalloc w)); simpl;
    [|rewrite <- !app_assoc; reflexivity].
  destruct ((0 <? size d)
            && (Z.of_nat (List.length (read_at f_dump (dump_offset d) (size d)))
                =? size d))%bool; simpl;
    [|destruct direct; simpl; rewrite <- !app_assoc; reflexivity].
  destruct ((0 <? size d)
            && (Z.of_nat
                  (List.length
                     (room_for (fwrite_room e (nwrite w))
                        (read_at f_dump (dump_offset d) (size d))))
                =? size d))%bool; simpl;
    [|rewrite <- !app_assoc; reflexivity].
  destruct (alloc_ok e (S (nalloc w))); simpl;
    rewrite <- !app_assoc; reflexivity.
Qed.

(** C7.  A transfer runs the five steps in the order seek core, seek dump,
    allocate [size] bytes, read [size] bytes, write [size] bytes: the steps
    of its trace are the first [n] of them, all successful, followed by
    the failed step when [n < 5] and by nothing else.  It returns 0 exactly
    when all five succeeded, and -1 otherwise.  The [--data=] hint is
    printed exactly when the read is the failed step and the placement is
    direct; the "injected" report exactly on success. *)
Theorem write_core_steps_in_order (f_dump : list byte) (d : ident_data)
    (direct : bool) (w : world) :
  let '(r, w') := write_core e f_dump d direct w in
  exists (n : nat) (new : list event),
    trace w' = trace w ++ new /\
    (n <= 5)%nat /\
    filter is_step new
    = map (fun step => step true) (firstn n (transfer_steps d))
      ++ map (fun step => step false) (firstn 1 (skipn n (transfer_steps d))) /\
    (r = 0 <-> n = 5%nat) /\
    (r = 0 \/ r = -1) /\
    (In (Stderr (Hint_data (ident d) (size d))) new
     <-> n = 3%nat /\ direct = true) /\
    (In (Stdout (Injected (ident d) (size d) direct)) new <-> n = 5%nat).
Proof.
  rewrite write_core_run.
  destruct (seek_core_ok e d w); simpl;
    [|exists 0%nat; eexists; split; [reflexivity|]; simpl;
      intuition (try discriminate; try lia)].
  destruct (seek_dump_ok d); simpl;
    [|exists 1%nat; eexists; split; [reflexivity|]; simpl;
      intuition (try discriminate; try lia)].
  destruct (buffer_ok e w); simpl;
    [|exists 2%nat; eexists; split; [reflexivity|]; simpl;
      intuition (try discriminate; try lia)].
  destruct (read_ok f_dump d); simpl;
    [|exists 3%nat; eexists; split; [reflexivity|]; destruct direct; simpl;
      intuition (try discriminate; try lia)].
  destruct (write_ok e f_dump d w); simpl;
    [|exists 4%nat; eexists; split; [reflexivity|]; simpl;
      intuition (try discriminate; try lia)].
  exists 5%nat; eexists; split; [reflexivity|]; simpl;
    intuition (try discriminate; try lia).
Qed.



Lemma write_core_ledger (f_dump : list byte) (d : ident_data) (direct : bool)
    (w : world) :
  let '(r, w') := write_core e f_dump d direct w in
  dump_list w'
  = (if ((r =? 0) && record_ok e w)%bool then region_of d :: dump_list w
     else dump_list w).
Proof.
  rewrite write_core_run; cbv zeta.
  destruct (seek_core_ok e d w); simpl; [|reflexivity].
  destruct (seek_dump_ok d); simpl; [|reflexivity].
  destruct (buffer_ok e w); simpl; [|reflexivity].
  destruct (read_ok f_dump d); simpl; [|reflexivity].
  destruct (write_ok e f_dump d w); simpl; reflexivity.
Qed.

(** C3, as the code has it.  [add_dump_item] puts the new region at the
    head of the list.  When the allocations succeed, the list after any
    sequence of transfers holds one region [{mem_offset, 0, size}] for each
    transfer that returned 0, the most recent first, ahead of what the list
    held before. *)
Theorem ledger_lists_most_recent_first
    (ts : list (list byte * ident_data * bool)) (w : world) :
  (forall k, alloc_ok e k = true) ->
  let '(rs, w') := run_transfers e ts w in
  dump_list w' = rev (map region_of (succeeded ts rs)) ++ dump_list w.
Proof.
  intros Halloc; revert w.
  induction ts as [|[[f_dump d] direct] ts IH]; intros w; simpl.
  - reflexivity.
  - unfold bind.
    pose proof (write_core_ledger f_dump d direct w) as Hstep.
    destruct (write_core e f_dump d direct w) as [r w1].
    specialize (IH w1).
    destruct (run_transfers e ts w1) as [rs w2]; unfold ret; simpl.
    unfold record_ok in Hstep; rewrite Halloc, andb_true_r in Hstep.
    rewrite IH, Hstep.
    destruct (r =? 0); simpl; [|reflexivity].
    rewrite <- app_assoc; reflexivity.
Qed.

End Transfer.



Lemma ledger_lists_most_recent_first_witness :
  dump_list (snd (run_transfers (plain_env []) two_transfers initial_world))
  = [mk_core_data 200 0 3; mk_core_data 100 0 2].
Proof.
  pose proof (ledger_lists_most_recent_first (plain_env []) two_transfers
                initial_world (fun k => eq_refl)) as H.
  destruct (run_transfers (plain_env []) two_transfers initial_world)
    as [rs w'] eqn:E.
  vm_compute in E; inversion E; subst rs w'; clear E.
  exact H.
Defined.

(** C3 as stated fails: two transfers succeed one after the other, and the
    list does not hold their regions in the order of completion. *)
Lemma ledger_not_in_completion_order :
  let '(rs, w') := run_transfers (plain_env []) two_transfers initial_world in
  rs = [0; 0] /\
  dump_list w' <> map region_of (succeeded two_transfers rs) /\
  dump_list w' = rev (map region_of (succeeded two_transfers rs)).
Proof.
  vm_compute; repeat split; intros H; discriminate H.
Qed.

(** ** One ident: [inject_data] *)

Lemma get_ident_data_returns_0 (want map : string) :
  fst (fst (get_ident_data want map)) = 0.
Proof.
  unfold get_ident_data; destruct (adjust (scan_map want map)); reflexivity.
Qed.

Lemma logged_logged (a b : list event) (w : world) :
  logged a (logged b w) = logged (b ++ a) w.
Proof. unfold logged; simpl; rewrite app_assoc; reflexivity. Qed.

Section Injection.

Variable e : env.

Lemma inject_indirect_run (b_fname : string) (indirect : ident_data) (err : Z)
    (w : world) :
  inject_indirect e b_fname indirect err w
  = match fopen_r e b_fname with
    | None => (None, logged [Fopen b_fname false; Stderr (Err_open b_fname)] w)
    | Some f_dump =>
        let '(r, w') := write_core e f_dump (set_filename b_fname indirect)
                          false (logged [Fopen b_fname true] w) in
        (Some (Z.lor err r), logged [Fclose b_fname] w')
    end.
Proof.
  unfold inject_indirect, fopen, fclose, log, bind, ret; simpl.
  destruct (fopen_r e b_fname) as [f_dump|]; simpl.
  - fold (logged [Fopen b_fname true] w).
    destruct (write_core e f_dump (set_filename b_fname indirect) false _)
      as [r w']; reflexivity.
  - unfold logged; simpl; rewrite <- app_assoc; reflexivity.
Qed.

Lemma inject_direct_run (b_fname : string) (direct : ident_data)
    (options : list prog_option) (err : Z) (w : world) :
  inject_direct e b_fname direct options err w
  = let '(d, options') := check_user_data (set_filename b_fname direct) options in
    match fopen_r e (filename d) with
    | None =>
        (None, options',
         logged [Fopen (filename d) false; Stderr (Err_open (filename d))] w)
    | Some f_dump =>
        let '(r, w') := write_core e f_dump d true
                          (logged [Fopen (filename d) true] w) in
        (Some (Z.lor err r), options', logged [Fclose (filename d)] w')
    end.
Proof.
  unfold inject_direct.
  destruct (check_user_data (set_filename b_fname direct) options)
    as [d options'].
  unfold fopen, fclose, log, bind, ret; simpl.
  destruct (fopen_r e (filename d)) as [f_dump|]; simpl.
  - fold (logged [Fopen (filename d) true] w).
    destruct (write_core e f_dump d true _) as [r w']; reflexivity.
  - unfold logged; simpl; rewrite <- app_assoc; reflexivity.
Qed.

(** C10.  Both placements of the ident have a size that is not 0.  When the
    source of the direct data cannot be opened, [inject_data] returns -1
    after the failed [fopen] and its message: nothing is done for the
    indirect data.  When it can be opened, the direct transfer runs and,
    whatever it returns, the dump file is opened for the indirect data and,
    if that succeeds, the indirect transfer runs; the value returned is the
    bitwise or of the two results, which is -1 when the direct transfer
    failed. *)
Theorem direct_open_failure_skips_indirect (map b_fname : string)
    (options options' : list prog_option) (direct indirect d : ident_data)
    (w : world) :
  get_ident_data (ident_of_path b_fname) map = (0, direct, indirect) ->
  check_user_data (set_filename b_fname direct) options = (d, options') ->
  0 < size direct -> 0 < size indirect ->
  match fopen_r e (filename d) with
  | None =>
      inject_data e map b_fname options w
      = (-1, options',
         logged [Fopen (filename d) false; Stderr (Err_open (filename d))] w)
  | Some f_direct =>
      let '(r1, w1) := write_core e f_direct d true
                         (logged [Fopen (filename d) true] w) in
      let w2 := logged [Fclose (filename d)] w1 in
      match fopen_r e b_fname with
      | None =>
          inject_data e map b_fname options w
          = (-1, options',
             logged [Fopen b_fname false; Stderr (Err_open b_fname)] w2)
      | Some f_indirect =>
          let '(r2, w3) := write_core e f_indirect
                             (set_filename b_fname indirect) false
                             (logged [Fopen b_fname true] w2) in
          inject_data e map b_fname options w
          = (Z.lor r1 r2, options', logged [Fclose b_fname] w3) /\
          (r1 = -1 -> Z.lor r1 r2 = -1)
      end
  end.
Proof.
  intros Hget Hcheck Hdirect Hindirect.
  unfold inject_data; rewrite Hget; simpl.
  pose proof (inject_direct_run b_fname direct options 0 w) as Hd.
  rewrite Hcheck in Hd.
  apply Z.ltb_lt in Hdirect; apply Z.ltb_lt in Hindirect.
  rewrite Hdirect; unfold inject_rest; rewrite Hindirect.
  unfold bind, ret; rewrite Hd.
  destruct (fopen_r e (filename d)) as [f_direct|]; [|reflexivity].
  destruct (write_core e f_direct d true _) as [r1 w1]; simpl.
  rewrite inject_indirect_run.
  destruct (fopen_r e b_fname) as [f_indirect|]; [|reflexivity].
  destruct (write_core e f_indirect _ false _) as [r2 w3]; simpl.
  split; [reflexivity|].
  intros E; subst r1; destruct r2; reflexivity.
Qed.

(** An ident that no line of the map carries, or only with size 0: the
    call returns 0, prints nothing and changes nothing. *)
Lemma inject_data_unknown_ident (map b_fname : string)
    (options : list prog_option) (direct indirect : ident_data) (w : world) :
  get_ident_data (ident_of_path b_fname) map = (0, direct, indirect) ->
  size direct = 0 -> size indirect = 0 ->
  inject_data e map b_fname options w = (0, options, w).
Proof.
  intros Hget Hd Hi.
  unfold inject_data, inject_rest; rewrite Hget, Hd, Hi; reflexivity.
Qed.

End Injection.

Lemma direct_open_failure_skips_indirect_witness :
  inject_data (plain_env []) (text ["8 300 2 I bar"; "a 400 4 D bar"]%string)
    "/tmp/bar" [] initial_world
  = (-1, [],
     logged [Fopen "/tmp/bar" false; Stderr (Err_open "/tmp/bar")]
       initial_world).
Proof.
  apply (direct_open_failure_skips_indirect (plain_env [])
           (text ["8 300 2 I bar"; "a 400 4 D bar"]%string) "/tmp/bar" [] []
           (mk_ident_data "" "bar" 2 10 1024 4)
           (mk_ident_data "" "bar" 0 8 768 2)
           (mk_ident_data "/tmp/bar" "bar" 2 10 1024 4)
           initial_world).
  - reflexivity.
  - reflexivity.
  - reflexivity.
  - reflexivity.
Defined.

(** C1, evaluated.  The map knows [foo] only.  For the dump file
    [/tmp/bar] the call of [inject_data] returns 0 and prints nothing, and
    the whole run exits with status 0 and hands the list over: the message
    "unable to find ident" is never printed, because [get_ident_data]
    always returns 0. *)
Theorem unknown_ident_goes_unreported :
  inject_data (plain_env foo_files) (text ["4 200 3 D foo"]%string) "/tmp/bar"
    [] initial_world
  = (0, [], initial_world) /\
  (forall want map, fst (fst (get_ident_data want map)) = 0) /\
  let '(status, w) :=
    main (plain_env foo_files)
      ["coreinject"; "core"; "symbol.map"; "/tmp/bar"; "/tmp/foo"]%string
      initial_world in
  status = 0 /\
  trace w
  = [Inject_data "symbol.map" 0; Inject_data "/tmp/bar" 0;
     Fopen "/tmp/foo" true; Fseek_core 4 true; Fseek_dump 0 true;
     Malloc 3 true; Fread 3 true; Fwrite 3 true; Calloc true;
     Stdout (Injected "foo" 3 true); Fclose "/tmp/foo";
     Inject_data "/tmp/foo" 0;
     Add_dump_list 8 [mk_core_data 512 0 3]].
Proof.
  split; [reflexivity|].
  split; [exact get_ident_data_returns_0|].
  vm_compute; split; reflexivity.
Qed.

(** ** The whole run: [main] *)

Lemma calls_app (a b : list event) : calls (a ++ b) = calls a ++ calls b.
Proof.
  induction a as [|ev a IH]; simpl; [reflexivity|].
  destruct ev; simpl; rewrite ?IH; reflexivity.
Qed.

Lemma returns_app (a b : list event) : returns (a ++ b) = returns a ++ returns b.
Proof.
  induction a as [|ev a IH]; simpl; [reflexivity|].
  destruct ev; simpl; rewrite ?IH; reflexivity.
Qed.

Lemma inner_nil : inner [].
Proof. repeat split. Qed.

Lemma inner_app (a b : list event) : inner a -> inner b -> inner (a ++ b).
Proof.
  intros (A1 & A2 & A3) (B1 & B2 & B3); unfold inner.
  rewrite calls_app, returns_app, existsb_app, A1, A2, A3, B1, B2, B3.
  repeat split.
Qed.

Lemma outcome_lor (r1 r2 : Z) (a b : list event) :
  outcome r1 a -> outcome r2 b -> outcome (Z.lor r1 r2) (a ++ b).
Proof.
  unfold outcome; rewrite existsb_app.
  intros [[-> ->] | [-> ->]] [[-> ->] | [-> ->]]; simpl; auto.
Qed.

Lemma trace_logged (evs : list event) (w : world) :
  trace (logged evs w) = trace w ++ evs.
Proof. reflexivity. Qed.

Lemma Subseq_refl {A : Type} (l : list A) : Subseq l l.
Proof. induction l; constructor; assumption. Qed.

Lemma Subseq_trans {A : Type} (a b c : list A) :
  Subseq a b -> Subseq b c -> Subseq a c.
Proof.
  intros Hab Hbc; revert a Hab.
  induction Hbc as [|x b c _ IH|x b c _ IH]; intros a Hab.
  - exact Hab.
  - constructor; apply IH; exact Hab.
  - inversion Hab; subst; constructor; apply IH; assumption.
Qed.

Lemma Subseq_length {A : Type} (a b : list A) :
  Subseq a b -> (List.length a <= List.length b)%nat.
Proof. induction 1; simpl; lia. Qed.

Lemma skipn_nth_error_Some {A : Type} (l : list A) (i : nat) (x : A) :
  nth_error l i = Some x -> skipn i l = x :: skipn (S i) l.
Proof.
  revert l; induction i as [|i IH]; intros [|y l]; simpl; try discriminate.
  - intros H; inversion H; reflexivity.
  - intros H; rewrite (IH l H); reflexivity.
Qed.

Lemma skipn_nth_error_None {A : Type} (l : list A) (i : nat) :
  nth_error l i = None -> skipn i l = [].
Proof.
  intros H; apply skipn_all2; apply nth_error_None; exact H.
Qed.

Lemma consumes_ident (o o' : prog_option) :
  consumes o o' -> o_ident o' = o_ident o.
Proof. intros [-> | [_ ->]]; reflexivity. Qed.

Lemma consumes_processed (o o' : prog_option) :
  consumes o o' -> processed o = true -> processed o' = true.
Proof. intros [-> | [H ->]]; auto. Qed.

Lemma evolves_length (a b : list prog_option) :
  evolves a b -> List.length a = List.length b.
Proof. induction 1; simpl; congruence. Qed.

Lemma evolves_skipn (a b : list prog_option) (i : nat) :
  evolves a b -> evolves (skipn i a) (skipn i b).
Proof.
  intros H; revert i; induction H as [|x y a b Hxy Hab IH]; intros [|i]; simpl;
    try constructor; auto.
Qed.

Lemma evolves_unconsumed (a b : list prog_option) :
  evolves a b ->
  Subseq (map o_ident (filter unconsumed b)) (map o_ident (filter unconsumed a)).
Proof.
  induction 1 as [|x y a b Hxy _ IH]; simpl; [constructor|].
  destruct Hxy as [-> | [Hx ->]].
  - destruct (unconsumed x); simpl; [apply Subseq_keep|]; exact IH.
  - replace (unconsumed x) with true
      by (unfold unconsumed; rewrite Hx; reflexivity).
    simpl; apply Subseq_skip; exact IH.
Qed.

Lemma accumulate_bit (err r : Z) :
  err = 0 \/ err = 1 -> accumulate err r = 0 \/ accumulate err r = 1.
Proof.
  unfold accumulate; intros [-> | ->]; destruct (r =? 0); simpl; auto.
Qed.

Lemma fold_accumulate_bit (rs : list Z) (err : Z) :
  err = 0 \/ err = 1 ->
  fold_left accumulate rs err = 0 \/ fold_left accumulate rs err = 1.
Proof.
  revert err; induction rs as [|r rs IH]; intros err H; simpl; [exact H|].
  apply IH, accumulate_bit, H.
Qed.

Lemma fold_accumulate_zero (rs : list Z) (err : Z) :
  err = 0 \/ err = 1 ->
  fold_left accumulate rs err = 0 <-> err = 0 /\ Forall (fun r => r = 0) rs.
Proof.
  revert err; induction rs as [|r rs IH]; intros err H; simpl.
  - split; [intros E; split; [exact E | constructor] | intros [E _]; exact E].
  - rewrite (IH _ (accumulate_bit err r H)).
    unfold accumulate; destruct (Z.eqb_spec r 0) as [-> | Hr].
    + split; intros [E F]; (split; [exact E|]).
      * constructor; auto.
      * inversion F; auto.
    + split.
      * intros [E _]; destruct H as [-> | ->]; simpl in E; discriminate.
      * intros [_ F]; inversion F; contradiction.
Qed.

Lemma ident_of_path_no_slash (b_fname : string) :
  Libc.strchr b_fname "/" = None -> ident_of_path b_fname = b_fname.
Proof.
  intros H; unfold ident_of_path.
  assert (E : Libc.strrchr b_fname "/" = None).
  { induction b_fname as [|c r IH]; simpl in *; [reflexivity|].
    destruct (Ascii.eqb c "/"); [discriminate|].
    rewrite (IH H); reflexivity. }
  rewrite E; reflexivity.
Qed.

Section Main.

Variable e : env.

Lemma write_core_summary (f_dump : list byte) (d : ident_data) (direct : bool)
    (w : world) :
  let '(r, w') := write_core e f_dump d direct w in
  exists new, trace w' = trace w ++ new /\ inner new /\ outcome r new /\
              Forall (names (ident d)) new.
Proof.
  rewrite write_core_run; cbv zeta.
  repeat match goal with
         | |- context [if negb ?b then _ else _] => destruct b; simpl
         end;
    try (destruct direct; simpl);
    eexists; (split; [reflexivity|]); unfold inner, outcome; simpl;
    (split; [repeat split|]); (split; [auto|]);
    repeat constructor.
Qed.

Lemma scan_lines_ident (want : string) (lines : list string)
    (st : ident_data * ident_data) :
  (size (fst st) = 0 \/ ident (fst st) = want) ->
  (size (snd st) = 0 \/ ident (snd st) = want) ->
  let st' := fold_left (scan_line want) lines st in
  (size (fst st') = 0 \/ ident (fst st') = want) /\
  (size (snd st') = 0 \/ ident (snd st') = want).
Proof.
  revert st; induction lines as [|raw lines IH]; intros st Hd Hi; simpl.
  - split; assumption.
  - apply IH;
      destruct (scan_line_cases want st raw)
        as [E | [(l & _ & _ & _ & E) | (l & _ & _ & _ & E)]];
      rewrite E; simpl; auto.
Qed.

(** A placement that [get_ident_data] found carries the ident asked for. *)
Lemma get_ident_data_ident (want map : string) :
  let '(_, direct, indirect) := get_ident_data want map in
  (0 < size direct -> ident direct = want) /\
  (0 < size indirect -> ident indirect = want).
Proof.
  unfold get_ident_data.
  pose proof (scan_lines_ident want (fgets_lines map)
                (zero_ident_data, zero_ident_data)) as Hscan.
  fold (scan_map want map) in Hscan.
  destruct Hscan as [Hd Hi]; [left; reflexivity | left; reflexivity |].
  pose proof (adjust_keeps (scan_map want map) Direct) as Hkd.
  pose proof (adjust_keeps (scan_map want map) Indirect) as Hki.
  destruct (adjust (scan_map want map)) as [direct indirect]; simpl in *.
  destruct Hkd as (_ & _ & Hsd & Hid & _).
  destruct Hki as (_ & _ & Hsi & Hii & _).
  rewrite Hsd, Hid, Hsi, Hii.
  split; intros Hpos; [destruct Hd as [Hd | Hd] | destruct Hi as [Hi | Hi]];
    auto; lia.
Qed.

Lemma table_after_length (map b_fname : string) (options : list prog_option) :
  List.length (table_after map b_fname options) = List.length options.
Proof.
  unfold table_after; destruct (has_direct map b_fname);
    [apply length_map | reflexivity].
Qed.

Lemma table_at_length (map : string) (options : list prog_option) (i : nat) :
  List.length (table_at map options i) = List.length options.
Proof.
  induction i as [|i IH]; cbn [table_at]; cbv zeta; [reflexivity|].
  destruct (nth_error (table_at map options i) i) as [o|]; [|exact IH].
  destruct (processed o); [exact IH|].
  rewrite table_after_length; exact IH.
Qed.

Lemma evolves_refl (options : list prog_option) : evolves options options.
Proof.
  induction options; constructor; [left; reflexivity | assumption].
Qed.

Lemma consumes_trans (a b c : prog_option) :
  consumes a b -> consumes b c -> consumes a c.
Proof.
  unfold consumes; intros [-> | [Ha ->]] [-> | [Hb ->]]; auto.
Qed.

Lemma evolves_trans (a b c : list prog_option) :
  evolves a b -> evolves b c -> evolves a c.
Proof.
  intros Hab; revert c; induction Hab as [|x y a b Hxy _ IH]; intros c Hbc;
    inversion Hbc; subst; constructor.
  - eapply consumes_trans; eassumption.
  - apply IH; assumption.
Qed.

Lemma check_user_data_evolves (d : ident_data) (options : list prog_option) :
  evolves options (snd (check_user_data d options)).
Proof.
  rewrite check_user_data_options.
  induction options as [|o rest IH]; simpl; constructor; [|exact IH].
  unfold wanted; destruct (processed o) eqn:Hp; simpl; [now left|].
  destruct (String.eqb (o_ident o) (ident d)); [right; auto | now left].
Qed.

Lemma inject_data_summary (map b_fname : string) (options : list prog_option)
    (w : world) :
  let '((r, options'), w') := inject_data e map b_fname options w in
  exists new, trace w' = trace w ++ new /\ inner new /\ outcome r new /\
              evolves options options' /\
              options' = table_after map b_fname options /\
              Forall (names (ident_of_path b_fname)) new.
Proof.
  unfold inject_data, table_after, has_direct.
  pose proof (get_ident_data_returns_0 (ident_of_path b_fname) map) as H0.
  pose proof (get_ident_data_ident (ident_of_path b_fname) map) as Hid.
  destruct (get_ident_data (ident_of_path b_fname) map)
    as [[found direct] indirect]; simpl in H0; subst found; simpl.
  destruct Hid as [Hidd Hidi].
  assert (Hrest : forall err w0 new0,
             trace w0 = trace w ++ new0 -> inner new0 -> outcome err new0 ->
             Forall (names (ident_of_path b_fname)) new0 ->
             let '(r, w') := inject_rest e b_fname indirect err w0 in
             exists new, trace w' = trace w ++ new /\ inner new /\
                         outcome r new /\
                         Forall (names (ident_of_path b_fname)) new).
  { intros err w0 new0 Ht Hin Hout Hnames; unfold inject_rest.
    destruct (0 <? size indirect) eqn:Hsize; [|unfold ret; eauto].
    apply Z.ltb_lt in Hsize; specialize (Hidi Hsize).
    unfold bind, ret; rewrite inject_indirect_run.
    destruct (fopen_r e b_fname) as [f_dump|].
    - pose proof (write_core_summary f_dump (set_filename b_fname indirect)
                    false (logged [Fopen b_fname true] w0)) as Hw.
      destruct (write_core e f_dump _ false _) as [r w1].
      destruct Hw as (new & Ht1 & Hin1 & Hout1 & Hnames1).
      simpl in Hnames1; rewrite Hidi in Hnames1.
      exists (new0 ++ [Fopen b_fname true] ++ new ++ [Fclose b_fname]).
      split; [|split; [|split]].
      + cbn [fst snd]; rewrite trace_logged, Ht1, trace_logged, Ht, <- !app_assoc.
        reflexivity.
      + repeat apply inner_app; auto; repeat split.
      + apply outcome_lor; [exact Hout|].
        destruct Hout1 as [[-> Hq] | [-> Hq]]; [left | right]; split; auto;
          simpl; rewrite existsb_app, Hq; reflexivity.
      + repeat (apply Forall_app; split); auto; repeat constructor.
    - exists (new0 ++ [Fopen b_fname false; Stderr (Err_open b_fname)]).
      split; [|split; [|split]].
      + rewrite trace_logged, Ht, <- app_assoc; reflexivity.
      + apply inner_app; auto; repeat split.
      + right; split; [reflexivity|].
        rewrite existsb_app; simpl; apply orb_true_r.
      + apply Forall_app; split; auto; repeat constructor. }
  destruct (0 <? size direct) eqn:Hsize.
  - apply Z.ltb_lt in Hsize; specialize (Hidd Hsize).
    unfold bind; rewrite inject_direct_run.
    pose proof (check_user_data_evolves (set_filename b_fname direct) options)
      as Hev.
    pose proof (check_user_data_options (set_filename b_fname direct) options)
      as Hopt.
    pose proof (check_user_data_ident (set_filename b_fname direct) options)
      as Hident.
    destruct (check_user_data (set_filename b_fname direct) options)
      as [d options']; simpl in Hev, Hopt, Hident.
    rewrite Hidd in Hopt, Hident.
    destruct (fopen_r e (filename d)) as [f_dump|].
    + pose proof (write_core_summary f_dump d true
                    (logged [Fopen (filename d) true] w)) as Hw.
      destruct (write_core e f_dump d true _) as [r1 w1].
      destruct Hw as (new1 & Ht1 & Hin1 & Hout1 & Hnames1).
      rewrite Hident in Hnames1.
      specialize (Hrest (Z.lor 0 r1) (logged [Fclose (filename d)] w1)
                    ([Fopen (filename d) true] ++ new1 ++ [Fclose (filename d)])).
      destruct (inject_rest e b_fname indirect (Z.lor 0 r1) _) as [r w'].
      destruct Hrest as (new & Ht & Hin & Hout & Hnames).
      * rewrite trace_logged, Ht1, trace_logged, <- !app_assoc; reflexivity.
      * repeat apply inner_app; auto; repeat split.
      * destruct Hout1 as [[-> Hq] | [-> Hq]]; [left | right]; split; auto;
          simpl; rewrite existsb_app, Hq; reflexivity.
      * repeat (apply Forall_app; split); auto; repeat constructor.
      * unfold ret; exists new; auto 7.
    + unfold ret; cbv beta iota.
      exists [Fopen (filename d) false; Stderr (Err_open (filename d))].
      rewrite trace_logged. split; [reflexivity|]. split; [repeat split|].
      split; [right; split; reflexivity|].
      split; [exact Hev|]. split; [exact Hopt | repeat constructor].
  - specialize (Hrest 0 w []).
    unfold bind. destruct (inject_rest e b_fname indirect 0 w) as [r w'].
    destruct Hrest as (new & Ht & Hin & Hout & Hnames).
    + rewrite app_nil_r; reflexivity.
    + apply inner_nil.
    + left; split; reflexivity.
    + constructor.
    + unfold ret; exists new; auto 7 using evolves_refl.
Qed.

Lemma accumulate_in_loop (err v : Z) :
  (if negb (v =? 0) then Z.lor err 1 else err) = accumulate err v.
Proof. unfold accumulate; destruct (v =? 0); reflexivity. Qed.

Lemma inject_dumps_summary (map : string) (args : list string)
    (options : list prog_option) (err : Z) (w : world) :
  let '((err', options'), w') := inject_dumps e map args options err w in
  exists new, trace w' = trace w ++ new /\
    existsb is_notify new = false /\
    calls new = args /\
    err' = fold_left accumulate (returns new) err /\
    evolves options options'.
Proof.
  revert options err w.
  induction args as [|b_fname rest IH]; intros options err w; simpl.
  - exists []; rewrite app_nil_r; repeat split; apply evolves_refl.
  - unfold bind at 1.
    pose proof (inject_data_summary map b_fname options w) as Hcall.
    destruct (inject_data e map b_fname options w) as [[v options1] w1].
    destruct Hcall as (new1 & Ht1 & (Hc1 & Hr1 & Hn1) & _ & Hev1 & _).
    unfold bind at 1, log at 1.
    rewrite accumulate_in_loop.
    specialize (IH options1 (accumulate err v)
                  (logged [Inject_data b_fname v] w1)).
    unfold logged in IH.
    destruct (inject_dumps e map rest options1 (accumulate err v) _)
      as [[err' options'] w'].
    destruct IH as (new & Ht & Hn & Hc & Herr & Hev).
    exists (new1 ++ [Inject_data b_fname v] ++ new).
    simpl in Ht; rewrite Ht, Ht1, <- !app_assoc.
    rewrite calls_app, returns_app, existsb_app, Hc1, Hr1, Hn1; simpl.
    rewrite Hc, Hn.
    repeat split; auto.
    eapply evolves_trans; eassumption.
Qed.

Lemma inject_leftover_summary (map : string) (n i : nat)
    (options : list prog_option) (err : Z) (w : world) :
  let '((err', options'), w') := inject_leftover e map n i options err w in
  exists new, trace w' = trace w ++ new /\
    existsb is_notify new = false /\
    err' = fold_left accumulate (returns new) err /\
    evolves options options' /\
    Subseq (calls new)
      (List.map o_ident (filter unconsumed (skipn i options))) /\
    ((List.length (skipn i options) <= n)%nat ->
     forall o, In o (skipn i options') -> processed o = false ->
               In (o_ident o) (calls new)).
Proof.
  revert i options err w.
  induction n as [|n IH]; intros i options err w; simpl.
  - exists []; rewrite app_nil_r; repeat split.
    + apply evolves_refl.
    + simpl. induction (filter unconsumed (skipn i options)); simpl;
        constructor; assumption.
    + intros Hlen o Hin.
      destruct (skipn i options); [destruct Hin | simpl in Hlen; lia].
  - destruct (nth_error options i) as [o|] eqn:Hnth.
    2:{ exists []; rewrite app_nil_r; repeat split.
        - apply evolves_refl.
        - rewrite (skipn_nth_error_None _ _ Hnth); constructor.
        - intros _ o Hin.
          rewrite (skipn_nth_error_None _ _ Hnth) in Hin; destruct Hin. }
    rewrite (skipn_nth_error_Some _ _ _ Hnth).
    destruct (processed o) eqn:Hp.
    + specialize (IH (S i) options err w).
      destruct (inject_leftover e map n (S i) options err w)
        as [[err' options'] w'].
      destruct IH as (new & Ht & Hn & Herr & Hev & Hsub & Hcov).
      exists new; repeat split; auto.
      * cbn [filter].
        replace (unconsumed o) with false
          by (unfold unconsumed; rewrite Hp; reflexivity).
        exact Hsub.
      * intros Hlen o' Hin Hun.
        pose proof (evolves_skipn _ _ i Hev) as Hsk.
        rewrite (skipn_nth_error_Some _ _ _ Hnth) in Hsk.
        inversion Hsk as [|x y a b Hxy Hab Ea Eb]; subst.
        assert (Eb' : skipn (S i) options' = b).
        { rewrite <- (Nat.add_1_l i), <- skipn_skipn, <- Eb; reflexivity. }
        rewrite <- Eb in Hin; destruct Hin as [-> | Hin].
        -- rewrite (consumes_processed _ _ Hxy Hp) in Hun; discriminate.
        -- apply Hcov; [cbn [List.length] in Hlen; lia | rewrite Eb'; exact Hin | exact Hun].
    + unfold bind at 1.
      pose proof (inject_data_summary map (o_ident o) options w) as Hcall.
      destruct (inject_data e map (o_ident o) options w) as [[v options1] w1].
      destruct Hcall as (new1 & Ht1 & (Hc1 & Hr1 & Hn1) & _ & Hev1 & _).
      unfold bind at 1, log at 1.
      rewrite accumulate_in_loop.
      specialize (IH (S i) options1 (accumulate err v)
                    (logged [Inject_data (o_ident o) v] w1)).
      unfold logged in IH.
      destruct (inject_leftover e map n (S i) options1 (accumulate err v) _)
        as [[err' options'] w'].
      destruct IH as (new & Ht & Hn & Herr & Hev & Hsub & Hcov).
      exists (new1 ++ [Inject_data (o_ident o) v] ++ new).
      simpl in Ht; rewrite Ht, Ht1, <- !app_assoc.
      rewrite calls_app, returns_app, existsb_app, Hc1, Hr1, Hn1.
      cbn [calls returns existsb is_notify app orb fold_left].
      rewrite Hn.
      assert (Hev' : evolves options options')
        by (eapply evolves_trans; eassumption).
      repeat split; auto.
      * cbn [filter].
        replace (unconsumed o) with true
          by (unfold unconsumed; rewrite Hp; reflexivity).
        cbn [List.map]; apply Subseq_keep.
        eapply Subseq_trans; [exact Hsub|].
        apply evolves_unconsumed, evolves_skipn; exact Hev1.
      * intros Hlen o' Hin Hun.
        pose proof (evolves_skipn _ _ i Hev') as Hsk.
        rewrite (skipn_nth_error_Some _ _ _ Hnth) in Hsk.
        inversion Hsk as [|x y a b Hxy Hab Ea Eb]; subst.
        assert (Eb' : skipn (S i) options' = b).
        { rewrite <- (Nat.add_1_l i), <- skipn_skipn, <- Eb; reflexivity. }
        rewrite <- Eb in Hin; destruct Hin as [-> | Hin].
        -- left; symmetry; apply consumes_ident; exact Hxy.
        -- right; apply Hcov; [|rewrite Eb'; exact Hin | exact Hun].
           pose proof (evolves_length _ _ (evolves_skipn _ _ (S i) Hev1)) as Hl.
           cbn [List.length] in Hlen; lia.
Qed.

(** The walk, index by index: from index [i] on, with the table as the
    walk has it there. *)
Lemma inject_leftover_walk (map : string) (options0 : list prog_option)
    (n i : nat) (err : Z) (w : world) :
  (i + n = List.length options0)%nat ->
  let '((err', options'), w') :=
    inject_leftover e map n i (table_at map options0 i) err w in
  exists new, trace w' = trace w ++ new /\
    calls new = flat_map (call_at map options0) (seq i n) /\
    options' = table_at map options0 (i + n).
Proof.
  revert i err w; induction n as [|n IH]; intros i err w Hlen.
  - simpl. exists []. rewrite app_nil_r, Nat.add_0_r. auto.
  - cbn [inject_leftover seq flat_map].
    destruct (nth_error (table_at map options0 i) i) as [o|] eqn:Hnth.
    2:{ apply nth_error_None in Hnth; rewrite table_at_length in Hnth; lia. }
    assert (Hcall : call_at map options0 i
                    = if processed o then [] else [o_ident o])
      by (unfold call_at; rewrite Hnth; reflexivity).
    assert (Hnext : table_at map options0 (S i)
                    = if processed o then table_at map options0 i
                      else table_after map (o_ident o) (table_at map options0 i))
      by (cbn [table_at]; cbv zeta; rewrite Hnth; reflexivity).
    rewrite Hcall; replace (i + S n)%nat with (S i + n)%nat by lia.
    destruct (processed o) eqn:Hp.
    + specialize (IH (S i) err w); rewrite Hnext in IH.
      destruct (inject_leftover e map n (S i) (table_at map options0 i) err w)
        as [[err' options'] w'].
      destruct IH as (new & Ht & Hc & Ho); [lia|].
      exists new; auto.
    + unfold bind at 1.
      pose proof (inject_data_summary map (o_ident o)
                    (table_at map options0 i) w) as Hdata.
      destruct (inject_data e map (o_ident o) (table_at map options0 i) w)
        as [[v options1] w1].
      destruct Hdata as (new1 & Ht1 & (Hc1 & _ & _) & _ & _ & Ho1 & _).
      rewrite <- Hnext in Ho1; subst options1.
      unfold bind at 1, log at 1.
      rewrite accumulate_in_loop.
      specialize (IH (S i) (accumulate err v)
                    (logged [Inject_data (o_ident o) v] w1)).
      unfold logged in IH.
      destruct (inject_leftover e map n (S i) (table_at map options0 (S i))
                  (accumulate err v) _) as [[err' options'] w'].
      destruct IH as (new & Ht & Hc & Ho); [lia|].
      exists (new1 ++ [Inject_data (o_ident o) v] ++ new).
      simpl in Ht; rewrite Ht, Ht1, <- !app_assoc.
      rewrite calls_app, Hc1; cbn [calls app]; rewrite Hc.
      auto.
Qed.

Lemma quiet_ret {A : Type} (a : A) : quiet_step (ret a).
Proof.
  intros w; split; [reflexivity|].
  exists []; simpl; rewrite app_nil_r; split; [reflexivity | apply inner_nil].
Qed.

Lemma quiet_bind {A B : Type} (c : M A) (k : A -> M B) :
  quiet_step c -> (forall a, quiet_step (k a)) -> quiet_step (bind c k).
Proof.
  intros Hc Hk w; unfold bind.
  destruct (Hc w) as (Hp1 & new1 & Ht1 & Hin1).
  destruct (c w) as [a w1]; simpl in *.
  destruct (Hk a w1) as (Hp2 & new2 & Ht2 & Hin2).
  split; [congruence|].
  exists (new1 ++ new2); rewrite Ht2, Ht1, app_assoc.
  split; [reflexivity | apply inner_app; assumption].
Qed.

Lemma quiet_log (ev : event) :
  inner [ev] -> quiet_step (log ev).
Proof.
  intros H w; split; [reflexivity|].
  exists [ev]; split; [reflexivity | exact H].
Qed.

Lemma quiet_allocate : quiet_step (allocate e).
Proof.
  intros w; split; [reflexivity|].
  exists []; simpl; rewrite app_nil_r.
  split; [reflexivity | apply inner_nil].
Qed.

Lemma quiet_set_core (f : list byte) (pos : Z) : quiet_step (set_core f pos).
Proof.
  intros w; split; [reflexivity|].
  exists []; simpl; rewrite app_nil_r.
  split; [reflexivity | apply inner_nil].
Qed.

Ltac quiet :=
  repeat first
    [ apply quiet_ret
    | apply quiet_allocate
    | apply quiet_set_core
    | apply quiet_log; repeat split
    | apply quiet_bind; [|intros ?]
    | match goal with
      | |- quiet_step (match ?x with _ => _ end) => destruct x
      | |- quiet_step (let '(_, _) := ?x in _) => destruct x
      end ].

Lemma quiet_add_option (options : list prog_option) (arg : string) :
  quiet_step (add_option e options arg).
Proof. unfold add_option, calloc, strndup; quiet. Qed.

Lemma quiet_parse_options (args : list string) (options : list prog_option) :
  quiet_step (parse_options e args options).
Proof.
  revert options; induction args as [|arg rest IH]; intros options; simpl.
  - apply quiet_ret.
  - destruct arg as [|c arg']; [apply quiet_ret|].
    destruct (Ascii.eqb c "-") eqn:Hc.
    + apply Ascii.eqb_eq in Hc; subst c.
      apply quiet_bind; [apply quiet_add_option|].
      intros [options'|]; [apply IH | apply quiet_ret].
    + assert (E : parse_options e (String c arg' :: rest) options
                  = ret (Some (options, String c arg' :: rest))).
      { simpl. destruct c as [[] [] [] [] [] [] [] []]; try reflexivity.
        discriminate Hc. }
      simpl in E; rewrite E; apply quiet_ret.
Qed.

Lemma quiet_setup (argv : list string) : quiet_step (setup e argv).
Proof.
  unfold setup.
  destruct (List.length argv <? 4)%nat; [quiet|].
  apply quiet_bind; [apply quiet_parse_options|].
  intros r. quiet.
Qed.

Lemma finish_run (err : Z) (w : world) :
  finish e err w
  = (err,
     mk_world (core (flushed e w)) (core_pos w) None (nflush (flushed e w)) []
       (nalloc w) (nwrite w)
       (trace w ++
        (if ((err =? 0) && open_ok e && fstat_ok e)%bool
         then [Add_dump_list (Z.of_nat (List.length (core (flushed e w))))
                 (dump_list w)]
         else []))).
Proof.
  unfold finish, fclose_core, flushed, fflush_core, bind, ret, log,
    get_dump_list, set_dump_list.
  destruct (pending w) as [[pos waiting]|] eqn:Hpending;
    destruct (err =? 0), (open_ok e), (fstat_ok e); simpl;
    rewrite ?app_nil_r, ?Hpending; reflexivity.
Qed.

Lemma inject_all_summary (map : string) (args : list string)
    (options : list prog_option) (w : world) :
  let '((err, options'), w') := inject_all e map args options w in
  exists new, trace w' = trace w ++ new /\
    existsb is_notify new = false /\
    err = fold_left accumulate (returns new) 0.
Proof.
  unfold inject_all, bind.
  pose proof (inject_dumps_summary map args options 0 w) as H1.
  destruct (inject_dumps e map args options 0 w) as [[err1 options1] w1].
  destruct H1 as (new1 & Ht1 & Hn1 & _ & Herr1 & _).
  pose proof (inject_leftover_summary map (List.length options1) 0 options1
                err1 w1) as H2.
  destruct (inject_leftover e map (List.length options1) 0 options1 err1 w1)
    as [[err options'] w'].
  destruct H2 as (new2 & Ht2 & Hn2 & Herr2 & _).
  exists (new1 ++ new2).
  rewrite Ht2, Ht1, app_assoc, existsb_app, Hn1, Hn2, returns_app,
    fold_left_app, <- Herr1.
  auto.
Qed.

(** C6, as the code has it.  A run that stops during the set-up exits with
    status 1 and hands nothing over.  A run that gets to the injections
    exits with their accumulated flag, which is 0 exactly when every call
    of [inject_data] returned 0.  Up to [out:] nothing is handed over.
    After it, the list is handed to [add_dump_list] once, as the last
    event, exactly when the flag is 0 and the core file can be opened and
    its size read; in every case the core file holds what the injections
    left in it and what the stream writes back when it is closed, and the
    list ends up freed. *)
Theorem notification_gate (argv : list string) :
  let '(s, w0) := setup e argv initial_world in
  let '(status, w) := main e argv initial_world in
  match s with
  | None =>
      status = 1 /\
      trace w = trace w0 /\ existsb is_notify (trace w0) = false /\
      core w = core w0 /\ dump_list w = []
  | Some (options, args, symmap) =>
      let '((err, _), w1) := inject_all e symmap args options w0 in
      status = err /\
      (err = 0 \/ err = 1) /\
      (err = 0 <-> Forall (fun r => r = 0) (returns (trace w1))) /\
      existsb is_notify (trace w1) = false /\
      trace w
      = trace w1 ++
        (if ((err =? 0) && open_ok e && fstat_ok e)%bool
         then [Add_dump_list (Z.of_nat (List.length (core (flushed e w1))))
                 (dump_list w1)]
         else []) /\
      core w = core (flushed e w1) /\ dump_list w = []
  end.
Proof.
  unfold main, bind.
  destruct (quiet_setup argv initial_world)
    as (Hp0 & new0 & Ht0 & Hc0 & Hr0 & Hn0).
  destruct (setup e argv initial_world) as [s w0]; simpl in Ht0.
  destruct s as [[[options args] symmap]|].
  - pose proof (inject_all_summary symmap args options w0) as Hall.
    destruct (inject_all e symmap args options w0) as [[err options'] w1].
    destruct Hall as (new & Ht & Hn & Herr).
    rewrite finish_run; simpl.
    assert (Hret : returns (trace w1) = returns new)
      by (rewrite Ht, Ht0, returns_app, Hr0; reflexivity).
    repeat split; auto.
    + rewrite Herr; apply fold_accumulate_bit; auto.
    + rewrite Hret, Herr. apply fold_accumulate_zero; auto.
    + rewrite Hret. intros F. rewrite Herr.
      apply fold_accumulate_zero; auto.
    + rewrite Ht, Ht0, existsb_app, Hn0, Hn; reflexivity.
  - rewrite finish_run; simpl.
    unfold flushed; rewrite (flushed_nothing e w0 Hp0).
    rewrite app_nil_r, Ht0, Hn0; repeat split.
Qed.

(** C9, as the code has it.  After the pass over the arguments, the
    override list is walked once, index by index.  An override that is
    unconsumed when the walk reaches it gets one call of [inject_data] with
    its own ident string as the path, and one that an earlier call
    consumed gets none: the calls of the walk are exactly [walk_calls], and
    the table that the walk leaves is the one it has past the last index.
    A call with the path [b_fname] resolves the ident after the last slash
    of [b_fname]: whatever the table and the state of the run, it consumes
    the overrides of [table_after], and every message of the call that
    names an ident names this one; it is the override's ident string when
    that has no slash.  So the calls are, in list order, for some of the
    overrides that the first pass left unconsumed, and every override that
    ends the run unconsumed had its call.  Each call that does not return
    0 sets bit 0 of the exit status. *)
Theorem leftover_overrides_get_their_call (symmap : string)
    (args : list string) (options : list prog_option) (w : world) :
  let '((err1, options1), w1) := inject_dumps e symmap args options 0 w in
  let '((err, options'), w') := inject_all e symmap args options w in
  exists new, trace w' = trace w1 ++ new /\
    calls new = walk_calls symmap options1 /\
    options' = table_at symmap options1 (List.length options1) /\
    (forall b_fname table w0,
       let '((_, table'), w0') := inject_data e symmap b_fname table w0 in
       table' = table_after symmap b_fname table /\
       exists evs, trace w0' = trace w0 ++ evs /\
                   Forall (names (ident_of_path b_fname)) evs) /\
    Subseq (calls new) (leftover_calls_by_spec options1) /\
    (forall o, In o options' -> processed o = false ->
               In (o_ident o) (calls new)) /\
    (forall o, In o options1 -> Libc.strchr (o_ident o) "/" = None ->
               ident_of_path (o_ident o) = o_ident o) /\
    evolves options1 options' /\
    err = fold_left accumulate (returns new) err1.
Proof.
  unfold inject_all, bind.
  destruct (inject_dumps e symmap args options 0 w) as [[err1 options1] w1].
  pose proof (inject_leftover_summary symmap (List.length options1) 0 options1
                err1 w1) as H.
  pose proof (inject_leftover_walk symmap options1 (List.length options1) 0
                err1 w1 eq_refl) as Hwalk.
  cbn [table_at Nat.add] in Hwalk.
  destruct (inject_leftover e symmap (List.length options1) 0 options1 err1 w1)
    as [[err options'] w'].
  destruct H as (new & Ht & _ & Herr & Hev & Hsub & Hcov).
  destruct Hwalk as (new' & Ht' & Hcalls & Htable).
  assert (new' = new) by (rewrite Ht in Ht'; eapply app_inv_head; eauto).
  subst new'.
  exists new.
  split; [exact Ht|]. split; [exact Hcalls|]. split; [exact Htable|].
  split; [|split; [exact Hsub|]; split; [exact (Hcov (Nat.le_refl _))|];
           split; [|split; [exact Hev | exact Herr]]].
  - intros b_fname table w0.
    pose proof (inject_data_summary symmap b_fname table w0) as Hdata.
    destruct (inject_data e symmap b_fname table w0) as [[v table'] w0'].
    destruct Hdata as (evs & Hevs & _ & _ & _ & Htab & Hnames).
    split; [exact Htab | exists evs; auto].
  - intros o _ Hslash; apply ident_of_path_no_slash; exact Hslash.
Qed.

End Main.

(** ** Runs that the claims as stated do not cover *)

(** C6 as stated fails.  In the first run every call of [inject_data]
    returns 0 and the exit status is 0, but the core file cannot be opened
    again and nothing is handed over.  The second run stops at the usage
    message: no injection failed, and nothing is handed over. *)
Lemma no_failure_and_no_hand_over :
  (let '(status, w) :=
     main (no_reopen_env foo_files)
       ["coreinject"; "core"; "symbol.map"; "/tmp/foo"]%string initial_world in
   status = 0 /\ returns (trace w) = [0; 0] /\
   existsb is_notify (trace w) = false /\
   core w = bytes (String "000" (String "000" (String "000" (String "000" "FOO"))))
            ++ [x00]) /\
  (let '(status, w) :=
     main (plain_env foo_files) ["coreinject"; "core"; "symbol.map"]%string
       initial_world in
   status = 1 /\ returns (trace w) = [] /\
   existsb is_notify (trace w) = false).
Proof.
  vm_compute; repeat split.
Qed.

(** C9 as stated fails.  In the first run two overrides for [foo] are
    unconsumed after the pass over the arguments, and the walk makes one
    call for them, not two: the first call consumes both.  In the second
    run the ident of the override has a slash, and the call that passes it
    resolves [foo], the part after the slash. *)
Lemma leftover_calls_differ :
  (let argv :=
     ["coreinject"; "--data=foo:2@/tmp/custom+0"; "--data=foo:3@/tmp/custom+1";
      "core"; "symbol.map"]%string in
   let '(s, w0) := setup (plain_env override_files) argv initial_world in
   let '(status, w) := main (plain_env override_files) argv initial_world in
   match s with
   | Some (options, args, symmap) =>
       let '(r, _) :=
         inject_dumps (plain_env override_files) symmap args options 0 w0 in
       leftover_calls_by_spec (snd r) = ["foo"; "foo"]%string /\
       walk_calls symmap (snd r) = ["foo"]%string /\
       calls (trace w) = ["symbol.map"; "foo"]%string /\
       status = 0
   | None => False
   end) /\
  (let '(status, w) :=
     main (plain_env override_files)
       ["coreinject"; "--data=x/foo:3@/tmp/custom+1"; "core"; "symbol.map"]%string
       initial_world in
   ident_of_path "x/foo" = "foo"%string /\
   calls (trace w) = ["symbol.map"; "x/foo"]%string /\
   trace w
   = [Calloc true; Strndup true; Strndup true; Inject_data "symbol.map" 0;
      Fopen "x/foo" false; Stderr (Err_open "x/foo");
      Inject_data "x/foo" (-1)] /\
   status = 1).
Proof.
  vm_compute; repeat split.
Qed.

(** ** The scenarios of the specification *)

(** The map line [1a0 200 10 D foo] and the dump file [/tmp/foo]: one direct
    transfer of 16 bytes from offset 0 of the dump to offset 0x1a0 of the
    core. *)
Example scenario_direct :
  let '(status, w) :=
    main (plain_env (scenario_files ["1a0 200 10 D foo"]%string))
      ["coreinject"; "core"; "symbol.map"; "/tmp/foo"]%string initial_world in
  status = 0 /\
  filter is_step (trace w)
  = [Fseek_core 416 true; Fseek_dump 0 true; Malloc 16 true; Fread 16 true;
     Fwrite 16 true] /\
  filter (fun ev => match ev with Stdout _ => true | _ => false end) (trace w)
  = [Stdout (Injected "foo" 16 true)] /\
  read_at (core w) 416 16 = bytes "0123456789abcdef" /\
  List.length (core w) = 432%nat.
Proof. vm_compute; repeat split. Qed.

(** Lines for [bar] of kind [I] with size 8 and of kind [D] with size 4:
    the direct transfer reads from offset 8 of the dump. *)
Example scenario_indirect_first :
  let '(status, w) :=
    main (plain_env (scenario_files ["0 300 8 I bar"; "8 400 4 D bar"]%string))
      ["coreinject"; "core"; "symbol.map"; "/tmp/bar"]%string initial_world in
  status = 0 /\
  filter is_step (trace w)
  = [Fseek_core 8 true; Fseek_dump 8 true; Malloc 4 true; Fread 4 true;
     Fwrite 4 true;
     Fseek_core 0 true; Fseek_dump 0 true; Malloc 8 true; Fread 8 true;
     Fwrite 8 true] /\
  core w = bytes "IIIIIIIIDDDD".
Proof. vm_compute; repeat split. Qed.

(** [--data=foo:4@/tmp/custom+100] and a map entry for [foo] of size 4: the
    direct data come from offset 100 of [/tmp/custom], whatever the dump
    file [/tmp/foo] holds. *)
Example scenario_override :
  let '(status, w) :=
    main (plain_env (scenario_files ["2 200 4 D foo"]%string))
      ["coreinject"; "--data=foo:4@/tmp/custom+100"; "core"; "symbol.map";
       "/tmp/foo"]%string initial_world in
  status = 0 /\
  filter (fun ev => match ev with Fopen _ _ => true | _ => false end) (trace w)
  = [Fopen "/tmp/custom" true] /\
  filter is_step (trace w)
  = [Fseek_core 2 true; Fseek_dump 100 true; Malloc 4 true; Fread 4 true;
     Fwrite 4 true] /\
  read_at (core w) 2 4 = bytes "DATA".
Proof. vm_compute; repeat split. Qed.

(** ** Numbers written and read back *)

Lemma digits_from_value (base : Z) (fuel : nat) (n : Z) (acc : list Z) :
  base <> 0 ->
  fold_left (fun a d => base * a + d) (digits_from fuel base n acc) 0
  = fold_left (fun a d => base * a + d) acc n.
Proof.
  intros Hb; revert n acc; induction fuel as [|k IH]; intros n acc; simpl.
  - f_equal; lia.
  - destruct (n <? base); simpl; [f_equal; lia|].
    rewrite IH; simpl; f_equal.
    rewrite <- Z.div_mod by exact Hb; reflexivity.
Qed.

Lemma value_digits (base n : Z) : base <> 0 -> Libc.value base (digits base n) = n.
Proof.
  intros Hb; unfold Libc.value, digits.
  rewrite digits_from_value by exact Hb; reflexivity.
Qed.

Lemma digits_from_valid (base : Z) (fuel : nat) (n : Z) (acc : list Z) :
  1 < base -> 0 <= n < base ^ Z.of_nat (S fuel) ->
  Forall (fun d => 0 <= d < base) acc ->
  Forall (fun d => 0 <= d < base) (digits_from fuel base n acc).
Proof.
  intros Hb; revert n acc; induction fuel as [|k IH]; intros n acc Hn Hacc.
  - simpl. constructor; [|exact Hacc].
    change (Z.of_nat 1) with 1 in Hn; rewrite Z.pow_1_r in Hn; exact Hn.
  - cbn [digits_from].
    destruct (Z.ltb_spec n base) as [Hlt | Hge]; [constructor; [lia | exact Hacc]|].
    apply IH.
    + rewrite Nat2Z.inj_succ, Z.pow_succ_r in Hn by lia.
      split; [apply Z.div_pos; lia|].
      apply Z.div_lt_upper_bound; lia.
    + constructor; [apply Z.mod_pos_bound; lia | exact Hacc].
Qed.

Lemma digits_from_head (base : Z) (fuel : nat) (n : Z) (acc : list Z) :
  1 < base -> 0 < n ->
  exists d ds, digits_from fuel base n acc = d :: ds /\ 0 < d.
Proof.
  intros Hb; revert n acc; induction fuel as [|k IH]; intros n acc Hn; simpl.
  - eauto.
  - destruct (Z.ltb_spec n base) as [Hlt | Hge]; [eauto|].
    apply IH.
    apply Z.div_str_pos; lia.
Qed.

Lemma digits_valid (base n : Z) :
  1 < base -> 0 <= n < 2 ^ 64 ->
  Forall (fun d => 0 <= d < base) (digits base n).
Proof.
  intros Hb Hn; apply digits_from_valid; [exact Hb | | constructor].
  split; [lia|].
  apply Z.lt_le_trans with (2 ^ 64); [lia|].
  change (Z.of_nat 64) with 64.
  apply Z.pow_le_mono_l; lia.
Qed.

Lemma digits_zero (base : Z) : 1 < base -> digits base 0 = [0].
Proof.
  intros Hb; unfold digits; simpl.
  destruct (Z.ltb_spec 0 base); [reflexivity | lia].
Qed.

Ltac digit_cases d :=
  let H := fresh "H" in
  assert (H : d = 0 \/ d = 1 \/ d = 2 \/ d = 3 \/ d = 4 \/ d = 5 \/ d = 6 \/ d = 7
              \/ d = 8 \/ d = 9 \/ d = 10 \/ d = 11 \/ d = 12 \/ d = 13 \/ d = 14
              \/ d = 15) by lia;
  repeat (destruct H as [-> | H]); [..|subst d].

Lemma xdigit_digit_char (d : Z) :
  0 <= d < 16 -> Libc.xdigit (digit_char d) = Some d.
Proof. intros Hd; digit_cases d; reflexivity. Qed.

Lemma digit_digit_char (d : Z) :
  0 <= d < 10 -> Libc.digit (digit_char d) = Some d.
Proof. intros Hd; digit_cases d; try reflexivity; lia. Qed.

Lemma digit_char_plain (d : Z) (c : ascii) :
  0 <= d < 16 -> separator c -> Ascii.eqb (digit_char d) c = false.
Proof.
  intros Hd Hc; unfold separator in Hc.
  repeat (destruct Hc as [-> | Hc]); [..|subst c]; digit_cases d; reflexivity.
Qed.

Lemma digit_char_not_space (d : Z) :
  0 <= d < 16 -> Libc.isspace (digit_char d) = false.
Proof. intros Hd; digit_cases d; reflexivity. Qed.

Lemma span_print_digits (dig : ascii -> option Z) (bound : Z) (ds : list Z)
    (rest : string) :
  (forall d, 0 <= d < bound -> dig (digit_char d) = Some d) ->
  Forall (fun d => 0 <= d < bound) ds ->
  Libc.span dig rest = ([], rest) ->
  Libc.span dig (print_digits ds ++ rest) = (ds, rest).
Proof.
  intros Hdig Hds Hrest; induction Hds as [|d ds Hd _ IH]; simpl.
  - exact Hrest.
  - rewrite (Hdig d Hd), IH; reflexivity.
Qed.

Lemma strchr_print_digits (ds : list Z) (rest : string) (c : ascii) :
  Forall (fun d => 0 <= d < 16) ds -> separator c ->
  Libc.strchr (print_digits ds ++ rest) c = Libc.strchr rest c /\
  Libc.before (print_digits ds ++ rest) c
  = (print_digits ds ++ Libc.before rest c)%string.
Proof.
  intros Hds Hc; induction Hds as [|d ds Hd _ [IH1 IH2]]; simpl.
  - auto.
  - rewrite (digit_char_plain d c Hd Hc), IH1, IH2; auto.
Qed.

Lemma print_digits_cons (d : Z) (ds : list Z) (rest : string) :
  (print_digits (d :: ds) ++ rest)%string
  = String (digit_char d) (print_digits ds ++ rest).
Proof. reflexivity. Qed.

Lemma digits_nonempty (base n : Z) :
  1 < base -> 0 <= n < 2 ^ 64 ->
  exists d ds, digits base n = d :: ds /\ 0 <= d < base /\ (0 < n -> 0 < d).
Proof.
  intros Hb Hn.
  pose proof (digits_valid base n Hb Hn) as Hv.
  destruct (Z.eq_dec n 0) as [-> | Hnz].
  - rewrite digits_zero in * by exact Hb.
    exists 0, []; repeat split; lia.
  - destruct (digits_from_head base 63 n [] Hb) as (d & ds & E & Hd); [lia|].
    unfold digits in *; rewrite E in *.
    inversion Hv; subst.
    exists d, ds; repeat split; auto; lia.
Qed.

(** [%lx] written, a blank, and read back by the [%lx] of [sscanf]. *)
Lemma scan_hex_print_lx (n : Z) (r : string) :
  0 <= n < 2 ^ 64 ->
  Libc.scan_hex (print_lx n ++ String " " r) = Some (n, String " "%char r).
Proof.
  intros Hn; unfold print_lx.
  pose proof (digits_valid 16 n ltac:(lia) Hn) as Hv.
  pose proof (value_digits 16 n ltac:(lia)) as Hval.
  destruct (Z.eq_dec n 0) as [-> | Hnz].
  - rewrite digits_zero by lia; reflexivity.
  - destruct (digits_nonempty 16 n ltac:(lia) Hn) as (d & ds & E & Hd & Hpos).
    rewrite E in *; rewrite print_digits_cons.
    unfold Libc.scan_hex.
    cbn [Libc.skip_space]; rewrite digit_char_not_space by exact Hd.
    assert (Hsign : Libc.scan_sign (String (digit_char d)
                                      (print_digits ds ++ String " " r))
                    = (false, String (digit_char d)
                                (print_digits ds ++ String " " r))).
    { assert (0 < d) by (apply Hpos; lia). digit_cases d; try reflexivity; lia. }
    rewrite Hsign.
    assert (H0x : Libc.scan_0x (String (digit_char d)
                                  (print_digits ds ++ String " " r))
                  = (false, String (digit_char d)
                              (print_digits ds ++ String " " r))).
    { assert (0 < d) by (apply Hpos; lia). digit_cases d; try reflexivity; lia. }
    rewrite H0x, <- print_digits_cons.
    rewrite (span_print_digits Libc.xdigit 16) by
      (auto using xdigit_digit_char).
    unfold Libc.strtoull; rewrite Hval.
    destruct (Z.leb_spec Libc.two64 n) as [Hle | _];
      [unfold Libc.two64 in Hle; lia | reflexivity].
Qed.

(** [%ld] written and read back by the [%zd] of [sscanf], whatever follows
    that is not a digit: all 64 bits come back. *)
Lemma scan_dec_print_ld (x : Z) (rest : string) :
  0 <= x < 2 ^ 64 ->
  Libc.span Libc.digit rest = ([], rest) ->
  Libc.scan_dec (print_ld x ++ rest) = Some (x, rest).
Proof.
  intros Hx Hrest; unfold print_ld, to_long.
  destruct (Z.ltb_spec x (2 ^ 63)) as [Hsmall | Hbig].
  - destruct (Z.ltb_spec x 0) as [|_]; [lia|].
    pose proof (digits_valid 10 x ltac:(lia) Hx) as Hv.
    destruct (digits_nonempty 10 x ltac:(lia) Hx) as (d & ds & E & Hd & _).
    pose proof (value_digits 10 x ltac:(lia)) as Hval.
    rewrite E in *; rewrite print_digits_cons.
    unfold Libc.scan_dec.
    cbn [Libc.skip_space]; rewrite digit_char_not_space by lia.
    assert (Hsign : Libc.scan_sign (String (digit_char d)
                                      (print_digits ds ++ rest))
                    = (false, String (digit_char d) (print_digits ds ++ rest))).
    { digit_cases d; try reflexivity; lia. }
    rewrite Hsign, <- print_digits_cons.
    rewrite (span_print_digits Libc.digit 10) by
      (auto using digit_digit_char).
    rewrite Hval.
    destruct (Z.leb_spec (2 ^ 63) x); [lia | reflexivity].
  - destruct (Z.ltb_spec (x - 2 ^ 64) 0) as [_|]; [|lia].
    assert (Hm : 0 <= - (x - 2 ^ 64) < 2 ^ 64) by lia.
    pose proof (digits_valid 10 _ ltac:(lia) Hm) as Hv.
    destruct (digits_nonempty 10 _ ltac:(lia) Hm) as (d & ds & E & Hd & _).
    pose proof (value_digits 10 (- (x - 2 ^ 64)) ltac:(lia)) as Hval.
    rewrite E in *.
    unfold Libc.scan_dec.
    change (String "-" (print_digits (d :: ds)) ++ rest)%string
      with (String "-" (print_digits (d :: ds) ++ rest)).
    cbn [Libc.skip_space Libc.scan_sign].
    change (Libc.isspace "-"%char) with false; cbv beta iota.
    rewrite (span_print_digits Libc.digit 10) by
      (auto using digit_digit_char).
    rewrite Hval.
    destruct (Z.leb_spec (2 ^ 63) (- (x - 2 ^ 64))) as [Hle | Hgt].
    + f_equal; f_equal; lia.
    + f_equal; f_equal. unfold Libc.two64.
      replace (2 ^ 64 - - (x - 2 ^ 64)) with x by lia.
      apply Z.mod_small; lia.
Qed.

(** ** Lines of the map written and read back *)

Lemma strchr_append (a b : string) (c : ascii) :
  Libc.strchr a c = None ->
  Libc.strchr (a ++ b) c = Libc.strchr b c /\
  Libc.before (a ++ b) c = (a ++ Libc.before b c)%string.
Proof.
  induction a as [|x a IH]; simpl; [auto|].
  destruct (Ascii.eqb x c); [discriminate|].
  intros H; destruct (IH H) as [E1 E2]; rewrite E1, E2; auto.
Qed.

Lemma before_none (s : string) (c : ascii) :
  Libc.strchr s c = None -> Libc.before s c = s.
Proof.
  induction s as [|x s IH]; simpl; [reflexivity|].
  destruct (Ascii.eqb x c); [discriminate|].
  intros H; rewrite (IH H); reflexivity.
Qed.

Lemma strchr_append_none (a b : string) (c : ascii) :
  Libc.strchr a c = None -> Libc.strchr b c = None ->
  Libc.strchr (a ++ b) c = None.
Proof.
  intros Ha Hb; destruct (strchr_append a b c Ha) as [E _]; congruence.
Qed.

Lemma print_digits_plain (ds : list Z) (c : ascii) :
  Forall (fun d => 0 <= d < 16) ds -> separator c ->
  Libc.strchr (print_digits ds) c = None.
Proof.
  intros Hds Hc.
  destruct (strchr_print_digits ds EmptyString c Hds Hc) as [E _].
  rewrite append_empty in E; exact E.
Qed.

Lemma print_lx_plain (n : Z) (c : ascii) :
  0 <= n < 2 ^ 64 -> separator c -> Libc.strchr (print_lx n) c = None.
Proof.
  intros Hn Hc; apply print_digits_plain; [|exact Hc].
  apply digits_valid; [lia | exact Hn].
Qed.

Lemma print_ld_plain (x : Z) (c : ascii) :
  0 <= x < 2 ^ 64 -> separator c -> c <> "-"%char ->
  Libc.strchr (print_ld x) c = None.
Proof.
  intros Hx Hc Hminus; unfold print_ld, to_long.
  assert (Hten : forall n, 0 <= n < 2 ^ 64 ->
                   Libc.strchr (print_digits (digits 10 n)) c = None).
  { intros n Hn; apply print_digits_plain; [|exact Hc].
    eapply Forall_impl; [|apply (digits_valid 10 n); [lia | exact Hn]].
    simpl; intros; lia. }
  destruct (x <? 2 ^ 63) eqn:Hs.
  - apply Z.ltb_lt in Hs.
    destruct (Z.ltb_spec x 0); [lia|]. apply Hten; lia.
  - apply Z.ltb_ge in Hs.
    destruct (Z.ltb_spec (x - 2 ^ 64) 0); [|lia].
    cbn [Libc.strchr].
    destruct (Ascii.eqb_spec "-"%char c) as [E | _]; [congruence|].
    apply Hten; lia.
Qed.

Lemma not_space_not_blank (c : ascii) :
  Libc.isspace c = false ->
  Ascii.eqb c " " = false /\ Ascii.eqb c Libc.newline = false.
Proof.
  intros H; split.
  - destruct (Ascii.eqb_spec c " "%char) as [-> | _]; [discriminate H | reflexivity].
  - destruct (Ascii.eqb_spec c Libc.newline) as [-> | _];
      [discriminate H | reflexivity].
Qed.

Lemma render_line_no_newline (l : map_line) :
  writable l -> Libc.strchr (render_line l) Libc.newline = None.
Proof.
  intros (Ho & Hm & Hs & Ht & Hn); unfold render_line.
  assert (Hsep : separator Libc.newline) by (unfold separator; tauto).
  destruct (not_space_not_blank _ Ht) as [_ Hnl].
  repeat (apply strchr_append_none;
          [first [apply print_lx_plain; assumption | reflexivity]|]).
  simpl; rewrite Hnl; exact Hn.
Qed.

Lemma sscanf_render_line (l : map_line) :
  writable l ->
  sscanf_map_line (render_line l)
  = Some (l_offset l, l_mem l, l_size l, l_type l).
Proof.
  intros (Ho & Hm & Hs & Ht & Hn); unfold sscanf_map_line, render_line.
  cbn [String.append].
  rewrite scan_hex_print_lx by exact Ho.
  change (Libc.scan_hex
            (String " " (print_lx (l_mem l) ++ String " "
               (print_lx (l_size l) ++ String " "
                  (String (l_type l) (String " " (l_name l)))))))
    with (Libc.scan_hex
            (print_lx (l_mem l) ++ String " "
               (print_lx (l_size l) ++ String " "
                  (String (l_type l) (String " " (l_name l)))))).
  rewrite scan_hex_print_lx by exact Hm.
  change (Libc.scan_hex
            (String " " (print_lx (l_size l) ++ String " "
               (String (l_type l) (String " " (l_name l))))))
    with (Libc.scan_hex
            (print_lx (l_size l) ++ String " "
               (String (l_type l) (String " " (l_name l))))).
  rewrite scan_hex_print_lx by exact Hs.
  unfold Libc.scan_char; cbn [Libc.skip_space].
  change (Libc.isspace " "%char) with true; cbv beta iota.
  cbn [Libc.skip_space]; rewrite Ht; reflexivity.
Qed.

Lemma locate_step (n : nat) (a r : string) :
  Libc.strchr a " " = None ->
  locate_ident (S n) (a ++ String " " r) = locate_ident n r.
Proof.
  intros Ha; cbn [locate_ident].
  destruct (strchr_append a (String " " r) " "%char Ha) as [E _].
  rewrite E; reflexivity.
Qed.

Lemma locate_render_line (l : map_line) :
  writable l -> locate_ident 4 (render_line l) = Some (l_name l).
Proof.
  intros (Ho & Hm & Hs & Ht & Hn); unfold render_line.
  assert (Hsep : separator " "%char) by (unfold separator; tauto).
  destruct (not_space_not_blank _ Ht) as [Hblank _].
  cbn [String.append].
  rewrite !locate_step by (apply print_lx_plain; assumption).
  change (String (l_type l) (String " " (l_name l)))
    with (String (l_type l) EmptyString ++ String " " (l_name l))%string.
  rewrite locate_step; [reflexivity|].
  simpl; rewrite Hblank; reflexivity.
Qed.

Lemma before_with_newline (l : map_line) :
  writable l ->
  Libc.before (with_newline (render_line l)) Libc.newline = render_line l.
Proof.
  intros Hl; unfold with_newline.
  destruct (strchr_append (render_line l) (String Libc.newline EmptyString)
              Libc.newline (render_line_no_newline l Hl)) as [_ E].
  rewrite E; simpl; apply append_empty.
Qed.

(** A line of the map as [fgets] returns it. *)
Lemma parse_line_written (l : map_line) :
  writable l -> parse_line (with_newline (render_line l)) = Some l.
Proof.
  intros Hl; unfold parse_line; rewrite (before_with_newline l Hl).
  rewrite (sscanf_render_line l Hl), (locate_render_line l Hl).
  destruct l; reflexivity.
Qed.

(** X1.  A line written as [render_line] writes it, with or without the
    newline that ends it, is read back by [parse_line] field by field. *)
Theorem parse_line_render_line (l : map_line) :
  writable l ->
  parse_line (with_newline (render_line l)) = Some l /\
  parse_line (render_line l) = Some l.
Proof.
  intros Hl; split; unfold parse_line.
  - rewrite (before_with_newline l Hl).
    rewrite (sscanf_render_line l Hl), (locate_render_line l Hl).
    destruct l; reflexivity.
  - rewrite (before_none _ _ (render_line_no_newline l Hl)).
    rewrite (sscanf_render_line l Hl), (locate_render_line l Hl).
    destruct l; reflexivity.
Qed.

(** ** Resolution as a function of the last line that counts *)

Lemma scan_line_entry (want : string) (k : kind) (raw : string)
    (st : ident_data * ident_data) :
  placement k (scan_line want st raw)
  = match entry_for want k raw with
    | Some l => assign want l (placement k st)
    | None => placement k st
    end.
Proof.
  unfold scan_line, entry_for.
  destruct (parse_line raw) as [l|]; [|reflexivity].
  destruct (String.eqb want (l_name l)); simpl; [|reflexivity].
  destruct (kind_of_type (l_type l)) as [[|]|]; destruct k; reflexivity.
Qed.

Lemma scan_lines_last (want : string) (k : kind) (lines : list string)
    (st : ident_data * ident_data) :
  placement k (fold_left (scan_line want) lines st)
  = match last_some (entry_for want k) lines with
    | Some l => assign want l (placement k st)
    | None => placement k st
    end.
Proof.
  revert st; induction lines as [|raw lines IH]; intros st; simpl.
  - reflexivity.
  - rewrite IH, scan_line_entry.
    destruct (last_some (entry_for want k) lines) as [l|];
      destruct (entry_for want k raw) as [l0|]; reflexivity.
Qed.

Lemma resolved_range (want : string) (k : kind) (lines : list string) :
  0 <= size (resolved want k lines) < Libc.two64 /\
  dump_offset (resolved want k lines) = 0.
Proof.
  unfold resolved.
  assert (H : forall l, last_some (entry_for want k) lines = Some l ->
                0 <= l_size l < Libc.two64).
  { induction lines as [|raw lines IH]; simpl; [discriminate|].
    intros l. destruct (last_some (entry_for want k) lines); [auto|].
    unfold entry_for.
    destruct (parse_line raw) as [l0|] eqn:Hp; [|discriminate].
    destruct (String.eqb want (l_name l0)); [|discriminate].
    destruct (kind_of_type (l_type l0)) as [k'|]; [|discriminate].
    destruct (kind_eqb k k'); [|discriminate].
    intros E; inversion E; subst; apply (parse_line_range raw l Hp). }
  destruct (last_some (entry_for want k) lines) as [l|]; simpl.
  - split; [apply H; reflexivity | reflexivity].
  - unfold Libc.two64; split; [lia | reflexivity].
Qed.

Lemma scan_map_resolved (want map : string) :
  scan_map want map
  = (resolved want Direct (fgets_lines map),
     resolved want Indirect (fgets_lines map)).
Proof.
  unfold scan_map, resolved.
  pose proof (scan_lines_last want Direct (fgets_lines map)
                (zero_ident_data, zero_ident_data)) as Hd.
  pose proof (scan_lines_last want Indirect (fgets_lines map)
                (zero_ident_data, zero_ident_data)) as Hi.
  destruct (fold_left (scan_line want) (fgets_lines map) _) as [d i].
  simpl in Hd, Hi; rewrite Hd, Hi; reflexivity.
Qed.

Lemma adjust_resolved (want : string) (lines : list string) :
  let direct := resolved want Direct lines in
  let indirect := resolved want Indirect lines in
  adjust (direct, indirect)
  = (if (negb (size indirect =? 0) && negb (size direct =? 0))%bool
     then set_dump_offset (size indirect) direct
     else direct,
     indirect).
Proof.
  intros direct indirect.
  destruct (resolved_range want Direct lines) as [_ Hoff].
  destruct (resolved_range want Indirect lines) as [Hsize _].
  fold direct in Hoff; fold indirect in Hsize.
  unfold adjust.
  destruct (negb (size indirect =? 0) && negb (size direct =? 0))%bool;
    [|reflexivity].
  rewrite Hoff, Z.add_0_l, Z.mod_small by exact Hsize; reflexivity.
Qed.

(** X2.  [get_ident_data] is decided by one line for each kind, the last of
    the map that is well formed and carries the ident and a type of that
    kind; without such a line the placement stays zeroed, with size 0.  The
    dump offset of the indirect data is always 0, and that of the direct
    data is the size of the indirect data when both are there. *)
Theorem get_ident_data_by_last_lines (want map : string) :
  let direct := resolved want Direct (fgets_lines map) in
  let indirect := resolved want Indirect (fgets_lines map) in
  get_ident_data want map
  = (0,
     if (negb (size indirect =? 0) && negb (size direct =? 0))%bool
     then set_dump_offset (size indirect) direct
     else direct,
     indirect).
Proof.
  intros direct indirect.
  unfold get_ident_data; rewrite scan_map_resolved.
  pose proof (adjust_resolved want (fgets_lines map)) as Ha.
  cbv zeta in Ha; rewrite Ha; reflexivity.
Qed.

Lemma last_some_map {A B C : Type} (f : B -> option C) (g : A -> B)
    (h : A -> option C) (l : list A) :
  Forall (fun x => f (g x) = h x) l ->
  last_some f (List.map g l) = last_some h l.
Proof.
  induction 1 as [|x l Hx _ IH]; simpl; [reflexivity|].
  rewrite IH, Hx; reflexivity.
Qed.

Lemma entry_for_written (want : string) (k : kind) (l : map_line) :
  writable l ->
  entry_for want k (with_newline (render_line l)) = pick want k l.
Proof.
  intros Hl; unfold entry_for, pick.
  rewrite (parse_line_written l Hl); reflexivity.
Qed.

Lemma render_fits (l : map_line) :
  writable l -> short_line l -> fits_buffer (render_line l).
Proof.
  intros Hl Hs; split; [apply render_line_no_newline; exact Hl | exact Hs].
Qed.

(** X3.  A map written one entry per line, each line within the 127
    characters that one [fgets] reads: [get_ident_data] returns for each
    kind the fields of the last entry with the ident and a type of that
    kind, and a zeroed placement when there is none. *)
Theorem get_ident_data_of_written_map (want : string)
    (entries : list map_line) :
  Forall writable entries -> Forall short_line entries ->
  let direct := chosen want Direct entries in
  let indirect := chosen want Indirect entries in
  get_ident_data want (text (List.map render_line entries))
  = (0,
     if (negb (size indirect =? 0) && negb (size direct =? 0))%bool
     then set_dump_offset (size indirect) direct
     else direct,
     indirect).
Proof.
  intros Hw Hs direct indirect.
  assert (Hlines : fgets_lines (text (List.map render_line entries))
                   = List.map with_newline (List.map render_line entries)).
  { apply fgets_lines_text.
    apply Forall_map, Forall_forall; intros l Hin.
    rewrite Forall_forall in Hw, Hs; apply render_fits; auto. }
  assert (Hres : forall k,
             resolved want k (fgets_lines (text (List.map render_line entries)))
             = chosen want k entries).
  { intros k; unfold resolved, chosen.
    rewrite Hlines, map_map.
    rewrite (last_some_map (entry_for want k)
               (fun l => with_newline (render_line l)) (pick want k));
      [reflexivity|].
    eapply Forall_impl; [|exact Hw].
    intros l Hl; apply entry_for_written; exact Hl. }
  unfold get_ident_data; rewrite scan_map_resolved.
  pose proof (adjust_resolved want
                (fgets_lines (text (List.map render_line entries)))) as Ha.
  cbv zeta in Ha; rewrite !Hres in Ha.
  rewrite !Hres, Ha; reflexivity.
Qed.

Lemma three_entries_written :
  Forall writable three_entries /\ Forall short_line three_entries.
Proof.
  split; repeat constructor; try (vm_compute; congruence);
    try (unfold short_line; vm_compute; lia).
Qed.

Lemma get_ident_data_of_written_map_witness :
  text (List.map render_line three_entries)
  = text ["1a0 200 10 D foo"; "0 300 8 I bar"; "8 400 4 D bar"]%string /\
  get_ident_data "bar" (text (List.map render_line three_entries))
  = (0, mk_ident_data "" "bar" 8 8 1024 4, mk_ident_data "" "bar" 0 0 768 8).
Proof.
  split; [reflexivity|].
  exact (get_ident_data_of_written_map "bar" three_entries
           (proj1 three_entries_written) (proj2 three_entries_written)).
Defined.

Lemma parse_line_render_line_witness :
  render_line (mk_map_line 416 512 16 "D" "foo") = "1a0 200 10 D foo"%string /\
  parse_line "1a0 200 10 D foo" = Some (mk_map_line 416 512 16 "D" "foo").
Proof.
  split; [reflexivity|].
  apply (parse_line_render_line (mk_map_line 416 512 16 "D" "foo")).
  unfold writable; simpl; repeat split; lia.
Defined.

(** ** Directives written and read back: [add_option] *)

Lemma separator_lookup (a r : string) (c : ascii) :
  Libc.strchr a c = None ->
  Libc.strchr (a ++ String c r) c = Some (String c r) /\
  Libc.before (a ++ String c r) c = a.
Proof.
  intros Ha; destruct (strchr_append a (String c r) c Ha) as [E1 E2].
  rewrite E1, E2; simpl; rewrite Ascii.eqb_refl, append_empty; auto.
Qed.

Lemma scan_dec_print_ld_end (x : Z) :
  0 <= x < 2 ^ 64 -> Libc.scan_dec (print_ld x) = Some (x, EmptyString).
Proof.
  intros Hx.
  rewrite <- (append_empty (print_ld x)).
  apply scan_dec_print_ld; [exact Hx | reflexivity].
Qed.

Lemma has_prefix_append (p s : string) : Libc.has_prefix p (p ++ s) = true.
Proof.
  unfold Libc.has_prefix; induction p as [|c p IH]; simpl.
  - destruct s; reflexivity.
  - destruct (ascii_dec c c) as [_ | Hne]; [exact IH | congruence].
Qed.

Lemma advance_append (p s : string) :
  Libc.advance (String.length p) (p ++ s) = s.
Proof. induction p as [|c p IH]; simpl; [reflexivity | exact IH]. Qed.

Section Directives.

Variable e : env.

(** X4.  The directive [--data=<ident>:<size>@<file>+<offset>], with both
    numbers written as [%ld] writes an [unsigned long], an ident without
    colon and a file name without plus sign: when its three allocations
    succeed, [add_option] puts at the end of the list an unconsumed
    override with exactly these four values, and prints nothing. *)
Theorem add_option_reads_directive (options : list prog_option)
    (id file : string) (n offset : Z) (w : world) :
  Libc.strchr id ":" = None ->
  Libc.strchr file "+" = None ->
  0 <= n < 2 ^ 64 -> 0 <= offset < 2 ^ 64 ->
  alloc_ok e (nalloc w) = true ->
  alloc_ok e (S (nalloc w)) = true ->
  alloc_ok e (S (S (nalloc w))) = true ->
  add_option e options (directive id n file offset) w
  = (Some (options ++ [mk_prog_option false n offset id file]),
     mk_world (core w) (core_pos w) (pending w) (nflush w) (dump_list w)
       (S (S (S (nalloc w)))) (nwrite w)
       (trace w ++ [Calloc true; Strndup true; Strndup true])).
Proof.
  intros Hid Hfile Hn Hoff Ha1 Ha2 Ha3.
  assert (Hat : Libc.strchr (print_ld n) "@" = None).
  { apply print_ld_plain; [exact Hn | unfold separator; tauto | discriminate]. }
  unfold add_option, directive.
  rewrite has_prefix_append, advance_append.
  cbn [String.append].
  destruct (separator_lookup id
              (print_ld n ++ String "@" (file ++ String "+" (print_ld offset)))
              ":"%char Hid) as [E1 B1].
  destruct (separator_lookup (print_ld n)
              (file ++ String "+" (print_ld offset)) "@"%char Hat) as [E2 _].
  destruct (separator_lookup file (print_ld offset) "+"%char Hfile)
    as [E3 B3].
  cbn [negb].
  unfold calloc, strndup, allocate, log, bind, ret.
  cbn [nalloc trace core core_pos pending nflush dump_list nwrite].
  rewrite Ha1; cbn [negb].
  rewrite E1, B1; cbn [nalloc trace core core_pos pending nflush dump_list nwrite].
  rewrite Ha2; cbn [negb Libc.next].
  rewrite E2, scan_dec_print_ld by (auto; reflexivity).
  cbn [Libc.next].
  rewrite E3, B3; cbn [nalloc trace core core_pos pending nflush dump_list nwrite].
  rewrite Ha3; cbn [negb Libc.next].
  rewrite scan_dec_print_ld_end by exact Hoff.
  rewrite <- !app_assoc; reflexivity.
Qed.

End Directives.

Lemma add_option_reads_directive_witness :
  directive "foo" 4 "/tmp/custom" 100 = "--data=foo:4@/tmp/custom+100"%string /\
  fst (add_option (plain_env []) [] "--data=foo:4@/tmp/custom+100" initial_world)
  = Some [mk_prog_option false 4 100 "foo" "/tmp/custom"].
Proof.
  split; [reflexivity|].
  change "--data=foo:4@/tmp/custom+100"%string
    with (directive "foo" 4 "/tmp/custom" 100).
  rewrite (add_option_reads_directive (plain_env []) [] "foo" "/tmp/custom"
             4 100 initial_world); try reflexivity; lia.
Defined.

(** ** The ident of a path *)

Lemma strrchr_none (s : string) (c : ascii) :
  Libc.strchr s c = None -> Libc.strrchr s c = None.
Proof.
  induction s as [|x s IH]; simpl; [reflexivity|].
  destruct (Ascii.eqb x c); [discriminate|].
  intros H; rewrite (IH H); reflexivity.
Qed.

Lemma strrchr_append_last (dir name : string) (c : ascii) :
  Libc.strchr name c = None ->
  Libc.strrchr (dir ++ String c name) c = Some (String c name).
Proof.
  intros Hname; induction dir as [|x dir IH]; simpl.
  - rewrite (strrchr_none name c Hname), Ascii.eqb_refl; reflexivity.
  - rewrite IH; reflexivity.
Qed.

Lemma strrchr_suffix (s t : string) (c : ascii) :
  Libc.strrchr s c = Some t ->
  exists dir name, s = (dir ++ String c name)%string /\ t = String c name /\
                   Libc.strchr name c = None.
Proof.
  revert t; induction s as [|x s IH]; simpl; [discriminate|].
  intros t. destruct (Libc.strrchr s c) as [u|] eqn:Hs.
  - intros E; inversion E; subst u.
    destruct (IH t eq_refl) as (dir & name & E1 & E2 & Hn).
    exists (String x dir), name; subst; auto.
  - destruct (Ascii.eqb_spec x c) as [-> | _]; [|discriminate].
    intros E; inversion E; subst t.
    exists EmptyString, s; repeat split.
    clear IH E; induction s as [|y s IHs]; simpl in *; [reflexivity|].
    destruct (Libc.strrchr s c); [discriminate|].
    destruct (Ascii.eqb y c); [discriminate | auto].
Qed.

(** X5.  The ident that [inject_data] takes from a path never holds a
    slash; it is the whole path when the path has none, and otherwise the
    text after its last slash, so two paths that differ in their
    directories only give the same ident. *)
Theorem ident_of_path_is_last_component (b_fname : string) :
  Libc.strchr (ident_of_path b_fname) "/" = None /\
  (Libc.strchr b_fname "/" = None -> ident_of_path b_fname = b_fname) /\
  (forall dir name, Libc.strchr name "/" = None ->
     ident_of_path (dir ++ String "/" name) = name) /\
  exists dir, b_fname = (dir ++ ident_of_path b_fname)%string.
Proof.
  repeat split.
  - unfold ident_of_path.
    destruct (Libc.strrchr b_fname "/") as [t|] eqn:Hs.
    + destruct (strrchr_suffix _ _ _ Hs) as (dir & name & _ & -> & Hn).
      exact Hn.
    + clear -Hs; induction b_fname as [|x s IH]; simpl in *; [reflexivity|].
      destruct (Libc.strrchr s "/"); [discriminate|].
      destruct (Ascii.eqb x "/"); [discriminate | auto].
  - apply ident_of_path_no_slash.
  - intros dir name Hn; unfold ident_of_path.
    rewrite (strrchr_append_last dir name "/"%char Hn); reflexivity.
  - unfold ident_of_path.
    destruct (Libc.strrchr b_fname "/") as [t|] eqn:Hs.
    + destruct (strrchr_suffix _ _ _ Hs) as (dir & name & -> & -> & Hn).
      exists (dir ++ String "/" EmptyString)%string; simpl.
      clear; induction dir; simpl; congruence.
    + exists EmptyString; reflexivity.
Qed.

(** ** What [add_option] registers *)

Lemma span_digit_nonneg (s : string) :
  Forall (fun d => 0 <= d) (fst (Libc.span Libc.digit s)).
Proof.
  induction s as [|c r IH]; simpl; [constructor|].
  destruct (Libc.digit c) as [d|] eqn:Hd; [|constructor].
  destruct (Libc.span Libc.digit r) as [ds rest]; simpl in *.
  constructor; [|exact IH].
  unfold Libc.digit in Hd. destruct (Libc.isdigit c) eqn:Hc; [|discriminate].
  inversion Hd; subst d.
  unfold Libc.isdigit in Hc; apply andb_prop in Hc; destruct Hc as [Hc _].
  apply Nat.leb_le in Hc; lia.
Qed.

Lemma scan_dec_range (s rest : string) (v : Z) :
  Libc.scan_dec s = Some (v, rest) -> 0 <= v < 2 ^ 64.
Proof.
  unfold Libc.scan_dec.
  destruct (Libc.skip_space s) as [|c r]; [discriminate|].
  destruct (Libc.scan_sign (String c r)) as [neg s2].
  pose proof (span_digit_nonneg s2) as Hds.
  destruct (Libc.span Libc.digit s2) as [ds rest']; simpl in Hds.
  destruct ds as [|d ds]; [discriminate|].
  assert (Hv : 0 <= Libc.value 10 (d :: ds))
    by (apply fold_value_nonneg; [lia | lia | exact Hds]).
  cbv zeta.
  match goal with |- Some (?X, _) = _ -> _ => set (x := X) end.
  intros H; assert (Hx : x = v) by congruence.
  subst v; unfold x; clear x H.
  assert (H64 : 0 < 2 ^ 64) by lia.
  destruct neg.
  - destruct (Z.leb_spec (2 ^ 63) (Libc.value 10 (d :: ds))); [lia|].
    unfold Libc.two64; exact (Z.mod_pos_bound _ _ H64).
  - destruct (Z.leb_spec (2 ^ 63) (Libc.value 10 (d :: ds))); lia.
Qed.

Lemma before_has_none (s : string) (c : ascii) :
  Libc.strchr (Libc.before s c) c = None.
Proof.
  induction s as [|x s IH]; simpl; [reflexivity|].
  destruct (Ascii.eqb x c) eqn:E; simpl; [reflexivity|].
  rewrite E; exact IH.
Qed.

Ltac one_message :=
  cbn [nalloc trace core core_pos pending nflush dump_list nwrite];
  split; [reflexivity|]; split; [reflexivity|]; split; [reflexivity|];
  split; [reflexivity|];
  eexists; split; [rewrite <- ?app_assoc; reflexivity|];
  split; reflexivity.

Section Registering.

Variable e : env.

(** X6.  [add_option] either fails, printing exactly one message and
    registering nothing, or puts one override at the end of the list and
    prints nothing; besides the message it only allocates.  The override
    is unconsumed, its ident holds no colon, its file name no plus sign,
    and its size and offset fit 64 bits; the argument began with
    [--data=].  The core file, its stream and the list of injected regions
    are not touched. *)
Theorem add_option_registers_one (options : list prog_option) (arg : string)
    (w : world) :
  let '(r, w') := add_option e options arg w in
  core w' = core w /\ pending w' = pending w /\
  dump_list w' = dump_list w /\ nwrite w' = nwrite w /\
  exists new, trace w' = trace w ++ new /\
    forallb setup_event new = true /\
    match r with
    | None => List.length (filter is_stderr new) = 1%nat
    | Some options' =>
        filter is_stderr new = [] /\
        Libc.has_prefix "--data=" arg = true /\
        exists o, options' = options ++ [o] /\ processed o = false /\
          Libc.strchr (o_ident o) ":" = None /\
          Libc.strchr (o_filename o) "+" = None /\
          0 <= o_size o < 2 ^ 64 /\ 0 <= o_offset o < 2 ^ 64
    end.
Proof.
  unfold add_option, calloc, strndup, allocate, log, bind, ret.
  destruct (Libc.has_prefix "--data=" arg) eqn:Hprefix; cbn [negb];
    [|one_message].
  cbn [nalloc trace core core_pos pending nflush dump_list nwrite].
  destruct (alloc_ok e (nalloc w)); cbn [negb]; [|one_message].
  destruct (Libc.strchr _ ":") as [p2|]; [|one_message].
  cbn [nalloc trace core core_pos pending nflush dump_list nwrite].
  destruct (alloc_ok e (S (nalloc w))); cbn [negb]; [|one_message].
  destruct (Libc.strchr (Libc.next p2) "@") as [p3|]; [|one_message].
  destruct (Libc.scan_dec (Libc.next p2)) as [[sz r1]|] eqn:Hsize;
    [|one_message].
  destruct (Libc.strchr (Libc.next p3) "+") as [p4|]; [|one_message].
  cbn [nalloc trace core core_pos pending nflush dump_list nwrite].
  destruct (alloc_ok e (S (S (nalloc w)))); cbn [negb]; [|one_message].
  destruct (Libc.scan_dec (Libc.next p4)) as [[off r2]|] eqn:Hoffset;
    [|one_message].
  cbn [nalloc trace core core_pos pending nflush dump_list nwrite].
  split; [reflexivity|]. split; [reflexivity|]. split; [reflexivity|].
  split; [reflexivity|].
  eexists; split; [rewrite <- !app_assoc; reflexivity|].
  split; [reflexivity|].
  split; [reflexivity|]. split; [reflexivity|].
  eexists; split; [reflexivity|].
  cbn [processed o_ident o_filename o_size o_offset].
  split; [reflexivity|].
  split; [apply before_has_none|].
  split; [apply before_has_none|].
  split; [eapply scan_dec_range; exact Hsize
         | eapply scan_dec_range; exact Hoffset].
Qed.

End Registering.

(** ** The core stream between two transfers *)

Section Stream.

Variable e : env.


End Stream.
